(** * AI Child Face Predictor: the generation orchestrator of [src/index.tsx]

    The React component [App] keeps six [PredictionResult] records, a single
    [generatingTarget] flag and the two uploaded parent images.  Its handler
    [generatePrediction] fans out one [generateVariation] call per record of
    the chosen gender and joins them with [Promise.allSettled].

    The embedding is a state machine.  A state holds the React state
    variables together with the calls that are still awaiting the remote
    model; an event is what the browser can deliver: a click on one of the two
    buttons, the completion of a pending call, a finished file upload, a move
    of the slider.  Every handler runs to its next [await] without
    interleaving, so each event is one atomic step; the view is rendered
    again between two events, so a handler always closes over the current
    state and a button is disabled or not according to it. *)

From stdpp Require Import list strings pretty.
From Stdlib Require Import ZArith Lia Ascii.

Local Open Scope string_scope.
Local Open Scope list_scope.
Local Open Scope Z_scope.

(** ** Types (lines 8-21) *)

Inductive Gender := boy | girl.

#[global] Instance Gender_eq_dec : EqDecision Gender.
Proof. solve_decision. Defined.

Record PredictionResult := mkResult {
  gender : Gender;
  age : Z;
  imageUrl : option string;
  loading : bool;
  error : option string
}.

(** [base64Data] is declared a string, but line 55 stores [undefined] in it
    when the reader's result holds no comma: hence the option. *)
Record UploadedImage := mkUpload {
  preview : string;
  base64Data : option string;
  mimeType : string
}.

Inductive Parent := father | mother.

(** ** JavaScript values used by the handler *)

(** Truthiness of an optional string: [undefined] and the empty string are
    falsy, every other string is truthy. *)
Definition truthy (o : option string) : bool :=
  match o with
  | None => false
  | Some s => negb (String.eqb s "")
  end.

(** A template literal prints an absent value as the word undefined. *)
Definition template_str (o : option string) : string :=
  default "undefined" o.

(** What a [catch] clause can receive. *)
Inductive JsError :=
  | TypeError (msg : string)
  | Error (msg : string)
  | ClientError (msg : string).

(** The error monad of a [try] block. *)
Definition Try (A : Type) : Type := JsError + A.

Definition throw {A} (e : JsError) : Try A := inl e.

#[global] Instance Try_ret : MRet Try := λ A a, inr a.

#[global] Instance Try_bind : MBind Try := λ A B k m,
  match m with
  | inl e => inl e
  | inr a => k a
  end.

(** ** The response of the generation client, as far as the handler reads it *)

Record Blob := mkBlob {
  blob_mimeType : option string;
  blob_data : option string
}.

Record Part := mkPart {
  inlineData : option Blob;
  text : option string
}.

Record Content := mkContent { parts : option (list Part) }.
Record Candidate := mkCandidate { content : option Content }.
Record Response := mkResponse { candidates : option (list Candidate) }.

(** How an awaited [generateContent] promise settles. *)
Inductive Outcome :=
  | Rejected (err : JsError)
  | Fulfilled (response : Response).

(** The request sent to the client (lines 113-132). *)
Record Request := mkRequest {
  req_father : Blob;
  req_mother : Blob;
  req_text : string
}.

(** ** The instruction text (lines 97-111) *)

Definition nl : string := String "010"%char "".

Definition genderTerm (item : PredictionResult) : string :=
  match gender item with
  | boy => if 18 <? age item then "man" else "boy"
  | girl => if 18 <? age item then "woman" else "girl"
  end.

Definition fatherPct (fatherDominance : Z) : Z := fatherDominance.
Definition motherPct (fatherDominance : Z) : Z := 100 - fatherDominance.

Definition prompt (item : PredictionResult) (fatherDominance : Z) : string :=
  nl +:+
  "          Generate a photorealistic portrait of a " +:+ pretty (age item)
    +:+ "-year-old " +:+ genderTerm item +:+ "." +:+ nl +:+
  "          This person is the hypothetical child of the two people in the provided images." +:+ nl +:+
  "          " +:+ nl +:+
  "          Blend the physical facial features of the first image (father) and the second image (mother)." +:+ nl +:+
  "          The facial structure and features should resemble the father by approximately "
    +:+ pretty (fatherPct fatherDominance) +:+ "% and the mother by approximately "
    +:+ pretty (motherPct fatherDominance) +:+ "%." +:+ nl +:+
  "          " +:+ nl +:+
  "          Ensure the image is high quality, clear, and has a neutral background. " +:+ nl +:+
  "          Focus on facial accuracy and genetic blending." +:+ nl +:+
  "        ".

(** ** Parsing the response (lines 134-145) *)

(** The [for] loop with its [break]: the URL built from the first part that
    carries [inlineData], or the initial empty string. *)
Fixpoint scanParts (ps : list Part) : string :=
  match ps with
  | [] => ""
  | part :: rest =>
      match inlineData part with
      | Some b => "data:image/png;base64," +:+ template_str (blob_data b)
      | None => scanParts rest
      end
  end.

(** [response.candidates && response.candidates[0].content.parts]: an absent
    [candidates] or [parts] is falsy and leaves the URL empty; reading
    [.content] of a missing first candidate, or [.parts] of a missing
    content, raises a TypeError. *)
Definition parseResponse (response : Response) : Try string :=
  match candidates response with
  | None => mret ""
  | Some cs =>
      match cs with
      | [] => throw (TypeError "Cannot read properties of undefined (reading 'content')")
      | c :: _ =>
          match content c with
          | None => throw (TypeError "Cannot read properties of undefined (reading 'parts')")
          | Some ct =>
              match parts ct with
              | None => mret ""
              | Some ps => mret (scanParts ps)
              end
          end
      end
  end.

(** The part of the [try] block that runs after the [await]. *)
Definition afterAwait (o : Outcome) : Try string :=
  response ← match o with
             | Rejected err => throw err
             | Fulfilled r => mret r
             end;
  generatedUrl ← parseResponse response;
  if String.eqb generatedUrl "" then throw (Error "No image generated")
  else mret generatedUrl.

(** ** Application state *)

(** A [generateVariation] call suspended at its [await]: the record and the
    index it captured when it was started, and the invocation of
    [generatePrediction] it belongs to. *)
Record Call := mkCall {
  call_run : nat;
  call_index : nat;
  call_item : PredictionResult;
  call_request : Request
}.

Record State := mkState {
  apiKey : option string;             (* process.env.API_KEY *)
  fatherImg : option UploadedImage;
  motherImg : option UploadedImage;
  fatherDominance : Z;
  generatingTarget : option Gender;
  appError : option string;           (* the [error] state of App *)
  results : list PredictionResult;
  pending : list Call;                (* calls awaiting the client *)
  nextRun : nat;                      (* number of runs started so far *)
  console : list JsError              (* what console.error received *)
}.

(** Lines 26-40. *)
Definition initialResults : list PredictionResult :=
  [ mkResult boy 5 None false None;
    mkResult boy 15 None false None;
    mkResult boy 25 None false None;
    mkResult girl 5 None false None;
    mkResult girl 15 None false None;
    mkResult girl 25 None false None ].

Definition initialState (key : option string) : State :=
  mkState key None None 50 None None initialResults [] 0 [].

Definition setError (e : option string) (s : State) : State :=
  mkState (apiKey s) (fatherImg s) (motherImg s) (fatherDominance s)
    (generatingTarget s) e (results s) (pending s) (nextRun s) (console s).

Definition setGeneratingTarget (t : option Gender) (s : State) : State :=
  mkState (apiKey s) (fatherImg s) (motherImg s) (fatherDominance s)
    t (appError s) (results s) (pending s) (nextRun s) (console s).

Definition setResults (f : list PredictionResult → list PredictionResult)
    (s : State) : State :=
  mkState (apiKey s) (fatherImg s) (motherImg s) (fatherDominance s)
    (generatingTarget s) (appError s) (f (results s)) (pending s) (nextRun s)
    (console s).

Definition setFatherDominance (w : Z) (s : State) : State :=
  mkState (apiKey s) (fatherImg s) (motherImg s) w
    (generatingTarget s) (appError s) (results s) (pending s) (nextRun s)
    (console s).

Definition setFatherImg (i : UploadedImage) (s : State) : State :=
  mkState (apiKey s) (Some i) (motherImg s) (fatherDominance s)
    (generatingTarget s) (appError s) (results s) (pending s) (nextRun s)
    (console s).

Definition setMotherImg (i : UploadedImage) (s : State) : State :=
  mkState (apiKey s) (fatherImg s) (Some i) (fatherDominance s)
    (generatingTarget s) (appError s) (results s) (pending s) (nextRun s)
    (console s).

Definition setPending (p : list Call) (s : State) : State :=
  mkState (apiKey s) (fatherImg s) (motherImg s) (fatherDominance s)
    (generatingTarget s) (appError s) (results s) p (nextRun s) (console s).

Definition startRun (s : State) : State :=
  mkState (apiKey s) (fatherImg s) (motherImg s) (fatherDominance s)
    (generatingTarget s) (appError s) (results s) (pending s) (S (nextRun s))
    (console s).

Definition consoleError (e : JsError) (s : State) : State :=
  mkState (apiKey s) (fatherImg s) (motherImg s) (fatherDominance s)
    (generatingTarget s) (appError s) (results s) (pending s) (nextRun s)
    (e :: console s).

(** ** generatePrediction (lines 71-172) *)

(** Lines 85-89: the records of the target gender go to the loading state. *)
Definition resetItem (targetGender : Gender) (r : PredictionResult)
    : PredictionResult :=
  if decide (gender r = targetGender)
  then mkResult (gender r) (age r) None true None
  else r.

Definition beginRun (targetGender : Gender) (prev : list PredictionResult)
    : list PredictionResult :=
  resetItem targetGender <$> prev.

(** Lines 163-166: the records of the target gender with their indices, read
    from the [results] the handler closed over. *)
Definition tasksFor (targetGender : Gender) (rs : list PredictionResult)
    : list (nat * PredictionResult) :=
  filter (λ t, gender t.2 = targetGender) (imap pair rs).

Definition inlineOf (img : UploadedImage) : Blob :=
  mkBlob (Some (mimeType img)) (base64Data img).

(** The synchronous prefix of [generateVariation]: the prompt is built and
    the request is issued before the first [await]. *)
Definition spawn (run : nat) (f m : UploadedImage) (dominance : Z)
    (t : nat * PredictionResult) : Call :=
  mkCall run t.1 t.2 (mkRequest (inlineOf f) (inlineOf m) (prompt t.2 dominance)).

(** Line 149: [{ ...item, loading: false, imageUrl: generatedUrl }]. *)
Definition successItem (item : PredictionResult) (generatedUrl : string)
    : PredictionResult :=
  mkResult (gender item) (age item) (Some generatedUrl) false (error item).

(** Line 157: [{ ...item, loading: false, error: "Failed to generate" }]. *)
Definition failureItem (item : PredictionResult) : PredictionResult :=
  mkResult (gender item) (age item) (imageUrl item) false
    (Some "Failed to generate").

(** [newResults[index] = x] on a copy of the array.  Every index written
    comes from enumerating [results], whose length never changes
    ([index_in_range] below), so the write is always in range; out of range
    JavaScript would grow the array, which this list update does not model. *)
Definition writeAt (index : nat) (x : PredictionResult)
    (current : list PredictionResult) : list PredictionResult :=
  <[index := x]> current.

(** The continuation of one [generateVariation] call (lines 134-160). *)
Definition settleCall (c : Call) (o : Outcome) (s : State) : State :=
  match afterAwait o with
  | inr generatedUrl =>
      setResults (writeAt (call_index c) (successItem (call_item c) generatedUrl)) s
  | inl err =>
      setResults (writeAt (call_index c) (failureItem (call_item c)))
        (consoleError err s)
  end.

(** Lines 170-171: once no call of the run is pending, [allSettled] resolves
    and the flag is cleared. *)
Definition runSettled (run : nat) (s : State) : bool :=
  forallb (λ c, negb (Nat.eqb (call_run c) run)) (pending s).

Definition joinRun (run : nat) (s : State) : State :=
  if runSettled run s then setGeneratingTarget None s else s.

Definition generatePrediction (targetGender : Gender) (s : State) : State :=
  match fatherImg s, motherImg s with
  | Some f, Some m =>
      if truthy (apiKey s) then
        let run := nextRun s in
        let tasks := tasksFor targetGender (results s) in
        let calls := spawn run f m (fatherDominance s) <$> tasks in
        let s1 := setGeneratingTarget (Some targetGender) s in
        let s2 := setError None s1 in
        let s3 := setResults (beginRun targetGender) s2 in
        let s4 := setPending (pending s ++ calls) (startRun s3) in
        joinRun run s4
      else setError (Some "API Key is missing.") s
  | _, _ => setError (Some "Please upload photos of both parents first.") s
  end.

(** ** The view (lines 300-352, 370-397) *)

(** The [disabled] attribute of the two buttons. *)
Definition buttonDisabled (g : Gender) (s : State) : bool :=
  match g with
  | boy =>
      bool_decide (generatingTarget s ≠ None)
      || bool_decide (fatherImg s = None) || bool_decide (motherImg s = None)
  | girl =>
      bool_decide (generatingTarget s ≠ None)
      || bool_decide (fatherImg s = None) || bool_decide (motherImg s = None)
  end.

(** What [ResultCard] shows for a record. *)
Inductive Status := idle | isLoading | ready | failed.

Definition status (result : PredictionResult) : Status :=
  if loading result then isLoading
  else if truthy (error result) then failed
  else if truthy (imageUrl result) then ready
  else idle.

(** ** Events *)

Inductive Event :=
  | Click (g : Gender)
  | Settle (k : nat) (o : Outcome)
  | FileLoaded (p : Parent) (img : UploadedImage)
  | FileRejected
  | Slide (w : Z).

(** A disabled button delivers no click. *)
Definition click (g : Gender) (s : State) : State :=
  if buttonDisabled g s then s else generatePrediction g s.

(** The [k]-th pending call settles; when it was the last of its run the
    join fires in the same turn. *)
Definition settle (k : nat) (o : Outcome) (s : State) : State :=
  match pending s !! k with
  | None => s
  | Some c =>
      joinRun (call_run c) (settleCall c o (setPending (delete k (pending s)) s))
  end.

(** Lines 42-69: [onloadend] stores the image and clears the banner; a file
    that is not an image only sets the banner. *)
Definition fileLoaded (p : Parent) (img : UploadedImage) (s : State) : State :=
  setError None
    (match p with
     | father => setFatherImg img s
     | mother => setMotherImg img s
     end).

Definition step (e : Event) (s : State) : State :=
  match e with
  | Click g => click g s
  | Settle k o => settle k o s
  | FileLoaded p img => fileLoaded p img s
  | FileRejected => setError (Some "Please upload a valid image file.") s
  | Slide w => setFatherDominance w s
  end.

Definition run_events (evs : list Event) (s : State) : State :=
  foldl (λ st e, step e st) s evs.

Inductive reachable : State → Prop :=
  | reachable_init key : reachable (initialState key)
  | reachable_step e s : reachable s → reachable (step e s).

(** ** Invariants, sample states and auxiliary definitions *)

(** The identity of a record never changes. *)
Definition ident (r : PredictionResult) : Gender * Z := (gender r, age r).

Definition urlPrefix : string := "data:image/png;base64,".

(** What the fields of a record can hold. *)
Record wf_item (r : PredictionResult) : Prop := {
  wf_loading : loading r = true → imageUrl r = None ∧ error r = None;
  wf_error : error r = None ∨ error r = Some "Failed to generate";
  wf_url : ∀ u, imageUrl r = Some u → ∃ d, u = urlPrefix +:+ d
}.

(** Holds after any sequence of handler invocations, guarded by the buttons
    or not. *)
Record shape (s : State) : Prop := {
  shape_ident : ident <$> results s = ident <$> initialResults;
  shape_calls : ∀ c, c ∈ pending s →
    ident <$> (results s !! call_index c) = Some (ident (call_item c));
  shape_items : Forall wf_item (results s);
  shape_call_items : ∀ c, c ∈ pending s → wf_item (call_item c)
}.

(** Holds in every state the buttons let the user reach: at most one run is
    in flight, and the loading records are those of its pending calls. *)
Definition barrier (s : State) : Prop :=
  match generatingTarget s with
  | None => pending s = [] ∧ Forall (λ r, loading r = false) (results s)
  | Some g =>
      pending s ≠ [] ∧
      (∀ c, c ∈ pending s → gender (call_item c) = g) ∧
      (∀ c c', c ∈ pending s → c' ∈ pending s → call_run c = call_run c') ∧
      NoDup (call_index <$> pending s) ∧
      (∀ i r, results s !! i = Some r →
              (loading r = true ↔ i ∈ call_index <$> pending s))
  end.

(** The record a completion writes, whatever the outcome. *)
Definition settledItem (c : Call) (o : Outcome) : PredictionResult :=
  match afterAwait o with
  | inr generatedUrl => successItem (call_item c) generatedUrl
  | inl _ => failureItem (call_item c)
  end.

Definition samplePhoto : UploadedImage :=
  mkUpload "data:image/jpeg;base64,QUJD" (Some "QUJD") "image/jpeg".

(** A response whose first candidate carries some text and then an image. *)
Definition imageResponse (mime data : string) : Outcome :=
  Fulfilled (mkResponse (Some [mkCandidate (Some (mkContent (Some
    [mkPart None (Some "Here is the portrait.");
     mkPart (Some (mkBlob (Some mime) (Some data))) None])))])).

Definition unavailable : Outcome := Rejected (ClientError "503 Service Unavailable").

(** Both photos uploaded, nothing generated yet. *)
Definition withPhotos : State :=
  run_events [FileLoaded father samplePhoto; FileLoaded mother samplePhoto]
    (initialState (Some "secret")).

(** The son run has been started and its three calls are in flight. *)
Definition sonRunning : State := step (Click boy) withPhotos.

(** The son run is in flight and the age-5 call has already delivered. *)
Definition sonPartly : State :=
  step (Settle 0 (imageResponse "image/png" "AAAA")) sonRunning.

(** A first son run: ages 5 and 25 deliver an image, age 15 is refused. *)
Definition firstRun : list Event :=
  [Click boy;
   Settle 0 (imageResponse "image/png" "AAAA");
   Settle 0 unavailable;
   Settle 0 (imageResponse "image/png" "CCCC")].

(** A second son run: age 5 is refused, ages 15 and 25 deliver an image. *)
Definition secondRun : list Event :=
  [Click boy;
   Settle 0 unavailable;
   Settle 0 (imageResponse "image/png" "BBBB");
   Settle 0 (imageResponse "image/png" "DDDD")].

Definition afterFirstRun : State := run_events firstRun withPhotos.
Definition afterSecondRun : State := run_events secondRun afterFirstRun.

(** A first son run in which only age 5 is refused. *)
Definition firstRunAge5Fails : list Event :=
  [Click boy;
   Settle 0 unavailable;
   Settle 0 (imageResponse "image/png" "BBBB");
   Settle 0 (imageResponse "image/png" "CCCC")].

(** The run of the claim: age 15 is refused, ages 5 and 25 deliver; the
    completions arrive in the order 25, 5, 15. *)
Definition runAge15Fails : list Event :=
  [Click boy;
   Settle 2 (imageResponse "image/png" "FFFF");
   Settle 0 (imageResponse "image/png" "DDDD");
   Settle 0 unavailable].

(** The mother photo is missing. *)
Definition fatherOnly : State :=
  step (FileLoaded father samplePhoto) (initialState (Some "secret")).

(** Both photos are there but the build carries no key. *)
Definition noKey : State :=
  run_events [FileLoaded father samplePhoto; FileLoaded mother samplePhoto]
    (initialState None).

Definition isClick (e : Event) : bool :=
  match e with
  | Click _ => true
  | _ => false
  end.

(** Deliver completions one after the other; [None] when one of them names
    no pending call. *)
Fixpoint settle_all (kos : list (nat * Outcome)) (s : State) : option State :=
  match kos with
  | [] => Some s
  | (k, o) :: rest =>
      if decide (k < length (pending s))%nat
      then settle_all rest (settle k o s)
      else None
  end.

Definition son25 : PredictionResult := mkResult boy 25 None false None.

(** The response carries an image somewhere, in any candidate. *)
Definition hasImage (r : Response) : Prop :=
  ∃ cs cand ct ps p b,
    candidates r = Some cs ∧ cand ∈ cs ∧ content cand = Some ct ∧
    parts ct = Some ps ∧ p ∈ ps ∧ inlineData p = Some b.

(** The first part of the first candidate that carries [inlineData] is [b]. *)
Definition firstImageIs (r : Response) (b : Blob) : Prop :=
  ∃ cand cs ct pre p post,
    candidates r = Some (cand :: cs) ∧ content cand = Some ct ∧
    parts ct = Some (pre ++ p :: post) ∧
    Forall (λ q, inlineData q = None) pre ∧ inlineData p = Some b.

(** All the parts of the response, candidate after candidate. *)
Definition allParts (r : Response) : list Part :=
  concat ((λ cand, default [] (content cand ≫= parts))
            <$> default [] (candidates r)).

(** A response whose only candidate has text but no image. *)
Definition textOnlyResponse : Outcome :=
  Fulfilled (mkResponse (Some [mkCandidate (Some (mkContent (Some
    [mkPart None (Some "I cannot draw that.")])))])).

(** ** The upload handler (lines 42-69) *)

(** [s.split(sep)] for a one-character separator: the segments between the
    separators, in order; the empty string gives one empty segment. *)
Fixpoint splitOn (sep : ascii) (s : string) : list string :=
  match s with
  | EmptyString => [""]
  | String ch rest =>
      if Ascii.eqb ch sep then "" :: splitOn sep rest
      else match splitOn sep rest with
           | [] => [String ch ""]
           | seg :: segs => String ch seg :: segs
           end
  end.

Fixpoint contains (ch : ascii) (s : string) : bool :=
  match s with
  | EmptyString => false
  | String c rest => Ascii.eqb c ch || contains ch rest
  end.

(** [e.target.files?.[0]] as far as the handler reads it: the type of the
    file and what the reader will hand to [onloadend] ([null] when reading
    failed). *)
Record ChosenFile := mkFile {
  file_type : string;
  file_read : option string
}.

(** Lines 52-67.  A [null] result makes [result.split] throw before any
    state is set.  Otherwise the photo is stored with the second
    comma-separated piece of the result as data, [undefined] when the result
    holds no comma. *)
Definition onloadend (parent : Parent) (fileType : string)
    (result : option string) (s : State) : State :=
  match result with
  | None => s
  | Some res =>
      fileLoaded parent (mkUpload res (splitOn "," res !! 1%nat) fileType) s
  end.

(** Lines 42-69, with the reader's callback run at once: what it stores does
    not depend on the state it finds. *)
Definition handleFileUpload (file : option ChosenFile) (parent : Parent)
    (s : State) : State :=
  match file with
  | None => s
  | Some f =>
      if String.prefix "image/" (file_type f)
      then onloadend parent (file_type f) (file_read f) s
      else setError (Some "Please upload a valid image file.") s
  end.


(** A photo as [handleFileUpload] stores it. *)
Definition storedPhoto (img : UploadedImage) : Prop :=
  String.prefix "image/" (mimeType img) = true ∧
  base64Data img = splitOn "," (preview img) !! 1%nat ∧
  ∀ d, base64Data img = Some d → contains "," d = false.

(** The states the page can be in when the photos come from the file inputs
    and the weight from the range input, whose [min] and [max] attributes
    (lines 267-268) keep it between 0 and 100. *)
Inductive browser_reachable : State → Prop :=
  | browser_init key : browser_reachable (initialState key)
  | browser_click g s : browser_reachable s → browser_reachable (click g s)
  | browser_settle k o s :
      browser_reachable s → browser_reachable (settle k o s)
  | browser_upload file p s :
      browser_reachable s → browser_reachable (handleFileUpload file p s)
  | browser_slide w s :
      browser_reachable s → 0 ≤ w ≤ 100 →
      browser_reachable (setFatherDominance w s).

(** What the page holds in such a state: photos as the handler stores them,
    a weight in range, and pending requests built from such photos and such
    a weight. *)
Record browser_inv (s : State) : Prop := {
  inv_father : ∀ img, fatherImg s = Some img → storedPhoto img;
  inv_mother : ∀ img, motherImg s = Some img → storedPhoto img;
  inv_weight : 0 ≤ fatherDominance s ≤ 100;
  inv_requests : ∀ c, c ∈ pending s →
    ∃ f m w, storedPhoto f ∧ storedPhoto m ∧ 0 ≤ w ≤ 100 ∧
      call_request c
      = mkRequest (inlineOf f) (inlineOf m) (prompt (call_item c) w)
}.

(** ** The cards (lines 320-322, 357-359, 370-411) *)

Inductive CardBody :=
  | Spinner (caption : string)
  | ErrorText (message : string)
  | Picture (src alt : string)
  | Placeholder.

Definition genderName (g : Gender) : string :=
  match g with
  | boy => "boy"
  | girl => "girl"
  end.

(** Lines 373-397. *)
Definition cardBody (result : PredictionResult) : CardBody :=
  if loading result
  then Spinner ("Generating " +:+ pretty (age result) +:+ "y...")
  else if truthy (error result)
  then ErrorText (default "" (error result))
  else if truthy (imageUrl result)
  then Picture (default "" (imageUrl result))
         ("Predicted " +:+ pretty (age result) +:+ " year old "
          +:+ genderName (gender result))
  else Placeholder.

(** Lines 401-408: the age badge is light over a picture, grey otherwise. *)
Definition badgeHighlighted (result : PredictionResult) : bool :=
  truthy (imageUrl result).

(** Lines 320-322 and 357-359: the cards of a section and their keys. *)
Definition sectionCards (g : Gender) (s : State) : list PredictionResult :=
  filter (λ r, gender r = g) (results s).

Definition cardKey (result : PredictionResult) : string :=
  genderName (gender result) +:+ "-" +:+ pretty (age result).

(** ** Records that carry nothing from an earlier run *)

Definition cleanItem (r : PredictionResult) : Prop :=
  imageUrl r = None ∧ error r = None.

(** A record whose card and fields agree: loading with no field, ready with
    an image only, or failed with the fixed message only. *)
Definition settledOrLoading (r : PredictionResult) : Prop :=
  (status r = isLoading ∧ imageUrl r = None ∧ error r = None) ∨
  (status r = ready ∧ is_Some (imageUrl r) ∧ error r = None) ∨
  (status r = failed ∧ imageUrl r = None ∧
   error r = Some "Failed to generate").

(** A response whose first candidate has only text and whose second
    candidate carries an image. *)
Definition lateImage : Response :=
  mkResponse (Some
    [mkCandidate (Some (mkContent (Some
       [mkPart None (Some "No picture in this one.")])));
     mkCandidate (Some (mkContent (Some
       [mkPart (Some (mkBlob (Some "image/png") (Some "AAAA"))) None])))]).

(** A response with one candidate holding the given parts. *)
Definition responseOfParts (ps : list Part) : Response :=
  mkResponse (Some [mkCandidate (Some (mkContent (Some ps)))]).

(** What the loop of lines 137-142 reads of a part. *)
Definition imageData (p : Part) : option (option string) :=
  blob_data <$> inlineData p.

(** ** Helper lemmas on lists *)

Section list_helpers.
Context {A B : Type}.
Implicit Types (l : list A) (f : A → B).

Lemma delete_split l k c :
  l !! k = Some c → l = take k l ++ c :: drop (S k) l ∧ delete k l = take k l ++ drop (S k) l.
Proof.
  intros H. split; [by rewrite take_drop_middle | apply delete_take_drop].
Qed.

Lemma elem_of_delete_iff l k c x :
  l !! k = Some c → (x ∈ l ↔ x = c ∨ x ∈ delete k l).
Proof.
  intros H. destruct (delete_split l k c H) as [Hl Hd].
  rewrite Hd. rewrite Hl at 1.
  rewrite !elem_of_app, elem_of_cons. tauto.
Qed.

Lemma NoDup_fmap_delete f l k c :
  l !! k = Some c → NoDup (f <$> l) →
  (f c ∉ f <$> delete k l) ∧ NoDup (f <$> delete k l).
Proof.
  intros H Hnd. destruct (delete_split l k c H) as [Hl Hd].
  rewrite Hd. rewrite Hl in Hnd.
  rewrite fmap_app, fmap_cons in Hnd. rewrite fmap_app.
  apply NoDup_app in Hnd as (H1 & H2 & H3).
  apply NoDup_cons in H3 as [H3 H4]. split.
  - rewrite elem_of_app. intros [Hin | Hin]; [| done].
    apply (H2 _ Hin). left.
  - apply NoDup_app. split_and!; [done | | done].
    intros y Hy Hy'. apply (H2 _ Hy). by right.
Qed.

End list_helpers.

(** ** The tasks selected for a run *)

Lemma elem_of_tasksFor g (rs : list PredictionResult) i r :
  (i, r) ∈ tasksFor g rs ↔ rs !! i = Some r ∧ gender r = g.
Proof.
  unfold tasksFor. rewrite list_elem_of_filter, elem_of_lookup_imap. simpl.
  split.
  - intros [Hg (j & y & Heq & Hl)]. by simplify_eq.
  - intros [Hl Hg]. eauto.
Qed.

Lemma fst_imap_pair (rs : list PredictionResult) :
  (imap pair rs).*1 = seq 0 (length rs).
Proof.
  apply list_eq. intros i.
  rewrite list_lookup_fmap, list_lookup_imap.
  destruct (rs !! i) as [r|] eqn:Hr; simpl.
  - symmetry. apply lookup_seq. split; [done |]. by eapply lookup_lt_Some.
  - symmetry. apply lookup_ge_None. rewrite length_seq.
    by apply lookup_ge_None in Hr.
Qed.

Lemma NoDup_tasksFor g (rs : list PredictionResult) :
  NoDup ((tasksFor g rs).*1).
Proof.
  unfold tasksFor.
  eapply sublist_NoDup; [| apply fmap_sublist, sublist_filter].
  rewrite fst_imap_pair. apply NoDup_seq.
Qed.

Lemma spawn_index run f m w (ts : list (nat * PredictionResult)) :
  call_index <$> (spawn run f m w <$> ts) = ts.*1.
Proof. rewrite <- list_fmap_compose. by apply list_fmap_ext. Qed.

Lemma elem_of_spawn run f m w g (rs : list PredictionResult) c :
  c ∈ spawn run f m w <$> tasksFor g rs ↔
  rs !! call_index c = Some (call_item c) ∧ gender (call_item c) = g ∧
  c = spawn run f m w (call_index c, call_item c).
Proof.
  rewrite list_elem_of_fmap. split.
  - intros ([i r] & -> & [Hl Hg]%elem_of_tasksFor). done.
  - intros (Hl & Hg & Hc). exists (call_index c, call_item c).
    split; [done |]. by apply elem_of_tasksFor.
Qed.

Lemma runSettled_true run s :
  runSettled run s = true ↔ ∀ c, c ∈ pending s → call_run c ≠ run.
Proof.
  unfold runSettled. rewrite forallb_forall. split.
  - intros H c Hc Heq. apply list_elem_of_In in Hc. specialize (H c Hc).
    rewrite Heq, Nat.eqb_refl in H. done.
  - intros H c Hc. apply list_elem_of_In in Hc. specialize (H c Hc).
    apply negb_true_iff, Nat.eqb_neq. done.
Qed.

(** ** Invariants of the state machine *)

Lemma scanParts_cases ps :
  (scanParts ps = "" ∧ Forall (λ p, inlineData p = None) ps) ∨
  (∃ pre p b post, ps = pre ++ p :: post ∧
     Forall (λ p, inlineData p = None) pre ∧ inlineData p = Some b ∧
     scanParts ps = urlPrefix +:+ template_str (blob_data b)).
Proof.
  induction ps as [| p ps IH]; simpl.
  - left. by split.
  - destruct (inlineData p) as [b|] eqn:Hp.
    + right. exists [], p, b, ps. by split_and!.
    + destruct IH as [[H1 H2] | (pre & q & b & post & -> & Hpre & Hq & Hs)].
      * left. split; [done |]. by constructor.
      * right. exists (p :: pre), q, b, post. split_and!; try done.
        by constructor.
Qed.

(** A successful completion always yields a URL with the fixed prefix. *)
Lemma afterAwait_inr o u :
  afterAwait o = inr u → ∃ d, u = urlPrefix +:+ d.
Proof.
  unfold afterAwait. destruct o as [e | r]; simpl; [done |].
  unfold parseResponse.
  destruct (candidates r) as [[| c cs] |]; simpl; try done.
  destruct (content c) as [ct |]; simpl; try done.
  destruct (parts ct) as [ps |]; simpl; try done.
  destruct (scanParts_cases ps) as [[-> _] | (pre & p & b & post & _ & _ & _ & ->)];
    simpl; [done |].
  intros [= <-]. eauto.
Qed.

Lemma wf_successItem item u :
  wf_item item → (∃ d, u = urlPrefix +:+ d) → wf_item (successItem item u).
Proof.
  intros [H1 H2 H3] Hu. split; simpl; [done | done |].
  intros ? [= <-]. done.
Qed.

Lemma wf_failureItem item : wf_item item → wf_item (failureItem item).
Proof. intros [H1 H2 H3]. split; simpl; [done | by right | done]. Qed.

Lemma wf_resetItem g r : wf_item r → wf_item (resetItem g r).
Proof.
  intros H. unfold resetItem. case_decide; [| done].
  split; simpl; [done | by left | done].
Qed.

Lemma ident_resetItem g r : ident (resetItem g r) = ident r.
Proof. unfold resetItem. by case_decide. Qed.

Lemma ident_beginRun g rs : ident <$> beginRun g rs = ident <$> rs.
Proof.
  unfold beginRun. rewrite <- list_fmap_compose.
  apply list_fmap_ext. intros i r _. apply ident_resetItem.
Qed.

(** *** The shape invariant is kept by every handler *)

Lemma shape_initial key : shape (initialState key).
Proof.
  split; simpl; [done | by intros c ?%elem_of_nil | | by intros c ?%elem_of_nil].
  unfold initialResults. repeat constructor; simpl; done.
Qed.

Lemma shape_setError e s : shape s → shape (setError e s).
Proof. by intros []. Qed.

Lemma shape_setGeneratingTarget t s : shape s → shape (setGeneratingTarget t s).
Proof. by intros []. Qed.

Lemma shape_joinRun run s : shape s → shape (joinRun run s).
Proof.
  intros H. unfold joinRun. destruct (runSettled run s); [| done].
  by apply shape_setGeneratingTarget.
Qed.

Lemma index_in_range s c :
  shape s → c ∈ pending s → (call_index c < length (results s))%nat.
Proof.
  intros Hs Hc. apply (shape_calls s Hs) in Hc.
  destruct (results s !! call_index c) eqn:Hl; [| done].
  by eapply lookup_lt_Some.
Qed.

Lemma shape_generatePrediction g s : shape s → shape (generatePrediction g s).
Proof.
  intros Hs. unfold generatePrediction.
  destruct (fatherImg s) as [f |]; [| by apply shape_setError].
  destruct (motherImg s) as [m |]; [| by apply shape_setError].
  destruct (truthy (apiKey s)); [| by apply shape_setError].
  apply shape_joinRun. destruct Hs as [H1 H2 H3 H4]. split; simpl.
  - by rewrite ident_beginRun.
  - intros c [Hc | Hc]%elem_of_app.
    + unfold beginRun. rewrite list_lookup_fmap, <- option_fmap_compose.
      rewrite <- (H2 c Hc). destruct (results s !! call_index c); simpl; [| done].
      f_equal. apply ident_resetItem.
    + apply elem_of_spawn in Hc as (Hl & Hg & _).
      unfold beginRun. rewrite list_lookup_fmap, Hl. simpl.
      f_equal. apply ident_resetItem.
  - unfold beginRun. apply Forall_fmap. eapply Forall_impl; [exact H3 |].
    intros r Hr. by apply wf_resetItem.
  - intros c [Hc | Hc]%elem_of_app; [by apply H4 |].
    apply elem_of_spawn in Hc as (Hl & _ & _).
    eapply Forall_lookup_1; [exact H3 | exact Hl].
Qed.

Lemma shape_settle k o s : shape s → shape (settle k o s).
Proof.
  intros Hs. unfold settle.
  destruct (pending s !! k) as [c |] eqn:Hk; [| done].
  apply shape_joinRun.
  assert (Hc : c ∈ pending s) by by eapply list_elem_of_lookup_2.
  pose proof (index_in_range s c Hs Hc) as Hlt.
  destruct Hs as [H1 H2 H3 H4].
  assert (Hid : ∀ x, ident x = ident (call_item c) →
            ident <$> writeAt (call_index c) x (results s) = ident <$> initialResults).
  { intros x Hx. unfold writeAt. rewrite list_fmap_insert, <- H1.
    apply list_insert_id. rewrite list_lookup_fmap, Hx. by apply H2. }
  assert (Hcalls : ∀ x c', ident x = ident (call_item c) → c' ∈ delete k (pending s) →
            ident <$> (writeAt (call_index c) x (results s) !! call_index c')
            = Some (ident (call_item c'))).
  { intros x c' Hx Hc'. apply list_elem_of_delete_inv in Hc'.
    unfold writeAt. destruct (decide (call_index c = call_index c')) as [Heq | Hne].
    - rewrite <- Heq, list_lookup_insert_eq by done. simpl.
      rewrite Hx. rewrite <- (H2 c Hc), Heq. by apply H2.
    - rewrite list_lookup_insert_ne by done. by apply H2. }
  unfold settleCall. destruct (afterAwait o) as [err | u] eqn:Ho.
  - split; simpl.
    + by apply Hid.
    + intros c' Hc'. by apply Hcalls.
    + apply Forall_insert; [done |]. apply wf_failureItem. by apply H4.
    + intros c' Hc'%list_elem_of_delete_inv. by apply H4.
  - split; simpl.
    + by apply Hid.
    + intros c' Hc'. by apply Hcalls.
    + apply Forall_insert; [done |]. apply wf_successItem; [by apply H4 |].
      by eapply afterAwait_inr.
    + intros c' Hc'%list_elem_of_delete_inv. by apply H4.
Qed.

Lemma shape_click g s : shape s → shape (click g s).
Proof.
  intros Hs. unfold click. destruct (buttonDisabled g s); [done |].
  by apply shape_generatePrediction.
Qed.

Lemma shape_step e s : shape s → shape (step e s).
Proof.
  intros Hs. destruct e as [g | k o | p img | | w]; simpl.
  - by apply shape_click.
  - by apply shape_settle.
  - unfold fileLoaded. apply shape_setError. destruct p; by destruct Hs.
  - by apply shape_setError.
  - by destruct Hs.
Qed.

Lemma reachable_shape s : reachable s → shape s.
Proof.
  induction 1 as [key | e s _ IH]; [apply shape_initial | by apply shape_step].
Qed.

(** *** The barrier invariant is kept by every event the view delivers *)

Lemma barrier_initial key : barrier (initialState key).
Proof.
  unfold barrier; simpl. split; [done |].
  unfold initialResults. by repeat constructor.
Qed.

(** Each gender has a record, so a run always spawns at least one call. *)
Lemma tasksFor_nonempty g s : shape s → tasksFor g (results s) ≠ [].
Proof.
  intros Hs Hnil.
  pose proof (shape_ident s Hs) as Hid.
  assert (∃ i r, results s !! i = Some r ∧ gender r = g) as (i & r & Hl & Hg).
  { destruct g.
    - pose proof (f_equal (λ l, l !! 0%nat) Hid) as H0. simpl in H0.
      rewrite list_lookup_fmap in H0.
      destruct (results s !! 0%nat) as [r |] eqn:Hr; [| done].
      exists 0%nat, r. split; [done |]. by injection H0.
    - pose proof (f_equal (λ l, l !! 3%nat) Hid) as H0. simpl in H0.
      rewrite list_lookup_fmap in H0.
      destruct (results s !! 3%nat) as [r |] eqn:Hr; [| done].
      exists 3%nat, r. split; [done |]. by injection H0. }
  assert (Hin : (i, r) ∈ tasksFor g (results s)) by by apply elem_of_tasksFor.
  rewrite Hnil in Hin. by apply elem_of_nil in Hin.
Qed.

Lemma buttonDisabled_false g s :
  buttonDisabled g s = false ↔
  generatingTarget s = None ∧ fatherImg s ≠ None ∧ motherImg s ≠ None.
Proof.
  unfold buttonDisabled.
  assert (Hnn : ¬ generatingTarget s ≠ None ↔ generatingTarget s = None).
  { destruct (generatingTarget s) as [g' |]; split; intros H;
      first [done | exfalso; by apply H | intros H'; by apply H']. }
  destruct g; rewrite !orb_false_iff, !bool_decide_eq_false, Hnn; tauto.
Qed.

Lemma barrier_click g s : shape s → barrier s → barrier (click g s).
Proof.
  intros Hs Hb. unfold click.
  destruct (buttonDisabled g s) eqn:Hd; [done |].
  apply buttonDisabled_false in Hd as (Hgt & Hf & Hm).
  unfold barrier in Hb. rewrite Hgt in Hb. destruct Hb as [Hp Hload].
  unfold generatePrediction.
  destruct (fatherImg s) as [f |]; [| done].
  destruct (motherImg s) as [m |]; [| done].
  destruct (truthy (apiKey s)).
  2: { unfold barrier; simpl. by rewrite Hgt. }
  rewrite Hp. simpl.
  set (calls := spawn (nextRun s) f m (fatherDominance s) <$> tasksFor g (results s)).
  assert (Hne : calls ≠ []).
  { unfold calls. intros Hnil%fmap_nil_inv. by eapply tasksFor_nonempty. }
  unfold joinRun.
  destruct (runSettled _ _) eqn:Hrs.
  { exfalso. rewrite runSettled_true in Hrs. simpl in Hrs.
    destruct calls as [| c cs] eqn:Hcalls; [done |].
    apply (Hrs c); [left |].
    assert (Hc : c ∈ calls) by (rewrite Hcalls; left).
    unfold calls in Hc. apply list_elem_of_fmap in Hc as (t & -> & _). done. }
  unfold barrier; simpl. fold calls. split_and!.
  - done.
  - intros c Hc. unfold calls in Hc. by apply elem_of_spawn in Hc as (_ & Hg & _).
  - intros c c' Hc Hc'. unfold calls in Hc, Hc'.
    apply list_elem_of_fmap in Hc as (t & -> & _).
    apply list_elem_of_fmap in Hc' as (t' & -> & _). done.
  - unfold calls. rewrite spawn_index. apply NoDup_tasksFor.
  - intros i r' Hr'. unfold beginRun in Hr'.
    rewrite list_lookup_fmap in Hr'.
    destruct (results s !! i) as [r |] eqn:Hr; [| done].
    simpl in Hr'. injection Hr' as <-.
    unfold calls. rewrite spawn_index, list_elem_of_fmap.
    unfold resetItem. case_decide as Hg; simpl.
    + split; [| done]. intros _. exists (i, r). split; [done |].
      by apply elem_of_tasksFor.
    + split.
      * intros Hl. rewrite Forall_lookup in Hload.
        specialize (Hload i r Hr). simpl in Hload.
        by rewrite Hl in Hload.
      * intros ([j r2] & -> & [Hl2 Hg2]%elem_of_tasksFor).
        simpl in Hl2, Hr. rewrite Hr in Hl2. injection Hl2 as ->. done.
Qed.

Lemma results_settleCall c o s :
  results (settleCall c o s) = <[call_index c := settledItem c o]> (results s).
Proof. unfold settleCall, settledItem. by destruct (afterAwait o). Qed.

Lemma pending_settleCall c o s : pending (settleCall c o s) = pending s.
Proof. unfold settleCall. by destruct (afterAwait o). Qed.

Lemma generatingTarget_settleCall c o s :
  generatingTarget (settleCall c o s) = generatingTarget s.
Proof. unfold settleCall. by destruct (afterAwait o). Qed.

Lemma loading_settledItem c o : loading (settledItem c o) = false.
Proof. unfold settledItem. by destruct (afterAwait o). Qed.

Lemma barrier_settle k o s : shape s → barrier s → barrier (settle k o s).
Proof.
  intros Hs Hb. unfold settle.
  destruct (pending s !! k) as [c |] eqn:Hk; [| done].
  assert (Hc : c ∈ pending s) by by eapply list_elem_of_lookup_2.
  pose proof (index_in_range s c Hs Hc) as Hlt.
  unfold barrier in Hb.
  destruct (generatingTarget s) as [g |] eqn:Hgt.
  2: { destruct Hb as [Hp _]. rewrite Hp in Hc. by apply elem_of_nil in Hc. }
  destruct Hb as (Hne & Hgen & Hrun & Hnd & Hload).
  destruct (NoDup_fmap_delete call_index _ _ _ Hk Hnd) as [Hfresh Hnd'].
  set (s1 := settleCall c o (setPending (delete k (pending s)) s)).
  assert (Hp1 : pending s1 = delete k (pending s))
    by (unfold s1; by rewrite pending_settleCall).
  assert (Hr1 : results s1 = <[call_index c := settledItem c o]> (results s))
    by (unfold s1; by rewrite results_settleCall).
  assert (Hg1 : generatingTarget s1 = Some g)
    by (unfold s1; by rewrite generatingTarget_settleCall).
  assert (Hload1 : ∀ i r, results s1 !! i = Some r →
            (loading r = true ↔ i ∈ call_index <$> delete k (pending s))).
  { intros i r. rewrite Hr1. intros Hr.
    destruct (decide (call_index c = i)) as [<- | Hne'].
    - rewrite list_lookup_insert_eq in Hr by done. injection Hr as <-.
      rewrite loading_settledItem. split; [done | by intros ?%Hfresh].
    - rewrite list_lookup_insert_ne in Hr by done.
      rewrite (Hload i r Hr), !list_elem_of_fmap. split.
      + intros (c' & -> & Hc'). exists c'. split; [done |].
        apply (elem_of_delete_iff _ _ _ c' Hk) in Hc' as [-> | Hc']; done.
      + intros (c' & -> & Hc'%list_elem_of_delete_inv). eauto. }
  unfold joinRun. destruct (runSettled (call_run c) s1) eqn:Hrs.
  - rewrite runSettled_true, Hp1 in Hrs.
    assert (Hnil : delete k (pending s) = []).
    { destruct (delete k (pending s)) as [| c' cs] eqn:Hd; [done |].
      exfalso. apply (Hrs c'); [left |].
      apply Hrun; [| done]. eapply list_elem_of_delete_inv. rewrite Hd. left. }
    unfold barrier; simpl. rewrite Hp1. split; [done |].
    apply Forall_lookup. intros i r Hr. apply Hload1 in Hr.
    rewrite Hnil in Hr. simpl in Hr.
    destruct (loading r); [| done]. destruct Hr as [Hr _].
    by apply elem_of_nil in Hr.
  - assert (Hne1 : delete k (pending s) ≠ []).
    { intros Hnil. apply not_true_iff_false in Hrs. apply Hrs.
      rewrite runSettled_true, Hp1, Hnil. by intros ? ?%elem_of_nil. }
    unfold barrier. rewrite Hg1, Hp1. split_and!; try done.
    + intros c' Hc'%list_elem_of_delete_inv. by apply Hgen.
    + intros c1 c2 H1%list_elem_of_delete_inv H2%list_elem_of_delete_inv.
      by apply Hrun.
Qed.

Lemma barrier_step e s : shape s → barrier s → barrier (step e s).
Proof.
  intros Hs Hb. destruct e as [g | k o | p img | | w]; simpl.
  - by apply barrier_click.
  - by apply barrier_settle.
  - by destruct p.
  - done.
  - done.
Qed.

Lemma reachable_barrier s : reachable s → barrier s.
Proof.
  induction 1 as [key | e s Hr IH]; [apply barrier_initial |].
  apply barrier_step; [by apply reachable_shape | done].
Qed.

(** ** Consequences used by several properties *)

Lemma reachable_run_events evs s : reachable s → reachable (run_events evs s).
Proof.
  revert s. induction evs as [| e evs IH]; intros s Hs; simpl; [done |].
  apply IH. by constructor.
Qed.

Lemma results_joinRun run s : results (joinRun run s) = results s.
Proof. unfold joinRun. by destruct (runSettled run s). Qed.

Lemma pending_joinRun run s : pending (joinRun run s) = pending s.
Proof. unfold joinRun. by destruct (runSettled run s). Qed.

Lemma console_joinRun run s : console (joinRun run s) = console s.
Proof. unfold joinRun. by destruct (runSettled run s). Qed.

Lemma results_settle k o s c :
  pending s !! k = Some c →
  results (settle k o s) = <[call_index c := settledItem c o]> (results s).
Proof.
  intros Hk. unfold settle. rewrite Hk.
  by rewrite results_joinRun, results_settleCall.
Qed.

Lemma pending_settle k o s c :
  pending s !! k = Some c → pending (settle k o s) = delete k (pending s).
Proof.
  intros Hk. unfold settle. rewrite Hk.
  by rewrite pending_joinRun, pending_settleCall.
Qed.

Lemma settle_out_of_range k o s : pending s !! k = None → settle k o s = s.
Proof. intros Hk. unfold settle. by rewrite Hk. Qed.

(** A completion writes its own slot and no other. *)
Lemma settle_own_slot k o s c :
  shape s → pending s !! k = Some c →
  results (settle k o s) !! call_index c = Some (settledItem c o).
Proof.
  intros Hs Hk. rewrite (results_settle k o s c Hk).
  apply list_lookup_insert_eq. apply index_in_range; [done |].
  by eapply list_elem_of_lookup_2.
Qed.

Lemma settle_other_slot k o s c j :
  pending s !! k = Some c → j ≠ call_index c →
  results (settle k o s) !! j = results s !! j.
Proof.
  intros Hk Hj. rewrite (results_settle k o s c Hk).
  by apply list_lookup_insert_ne.
Qed.

(** In a reachable state the fields of an idle or loading record are absent. *)
Lemma idle_loading_fields_absent s r :
  reachable s → r ∈ results s → status r = idle ∨ status r = isLoading →
  imageUrl r = None ∧ error r = None.
Proof.
  intros Hs Hr Hst. apply reachable_shape in Hs.
  pose proof (proj1 (Forall_forall _ _) (shape_items s Hs) r Hr) as [H1 H2 H3].
  unfold status in Hst. destruct (loading r); [by apply H1 |].
  destruct H2 as [He | He]; rewrite He in Hst; simpl in Hst;
    [| by destruct Hst].
  destruct (imageUrl r) as [u |]; [| done].
  destruct (H3 u eq_refl) as [d ->]. simpl in Hst. by destruct Hst.
Qed.

(** ** The sample states are reachable *)

Lemma withPhotos_reachable : reachable withPhotos.
Proof. apply reachable_run_events. constructor. Qed.

Lemma sonRunning_reachable : reachable sonRunning.
Proof. constructor. apply withPhotos_reachable. Qed.

Lemma sonPartly_reachable : reachable sonPartly.
Proof. constructor. apply sonRunning_reachable. Qed.

(** ** Exclusive result fields (C1) *)

(** The first run from the initial records keeps the fields exclusive. *)
Example afterFirstRun_results :
  results afterFirstRun =
    [ mkResult boy 5 (Some "data:image/png;base64,AAAA") false None;
      mkResult boy 15 None false (Some "Failed to generate");
      mkResult boy 25 (Some "data:image/png;base64,CCCC") false None;
      mkResult girl 5 None false None;
      mkResult girl 15 None false None;
      mkResult girl 25 None false None ]
  ∧ generatingTarget afterFirstRun = None.
Proof. by vm_compute. Qed.

(** When the call's captured record carries nothing from an earlier run, the
    card shows exactly the outcome of the call. *)
Lemma settledItem_clean_status c o :
  imageUrl (call_item c) = None → error (call_item c) = None →
  status (settledItem c o) =
    match afterAwait o with inr _ => ready | inl _ => failed end
  ∧ (imageUrl (settledItem c o) = None ∨ error (settledItem c o) = None).
Proof.
  intros Hu He. unfold settledItem.
  destruct (afterAwait o) as [err | u] eqn:Ho.
  - split; [done |]. left. done.
  - destruct (afterAwait_inr o u Ho) as [d ->].
    unfold status; simpl. rewrite He. split; [done | by right].
Qed.

(** C1: the claim asks that a settled record never holds both an image
    payload and an error message, also after a second run for the same
    gender.  The code breaks this: [generateVariation] spreads the record it
    captured before the reset of lines 85-89, so the second run writes back
    the field left by the first.  Evaluated on a first run that left age 5
    ready and age 15 failed, followed by a second run in which age 5 fails
    and age 15 succeeds: both records end with both fields set. *)
Theorem second_run_sets_both_fields :
  reachable afterSecondRun ∧
  results afterSecondRun !! 0%nat =
    Some (mkResult boy 5 (Some "data:image/png;base64,AAAA") false
            (Some "Failed to generate")) ∧
  results afterSecondRun !! 1%nat =
    Some (mkResult boy 15 (Some "data:image/png;base64,BBBB") false
            (Some "Failed to generate")) ∧
  status <$> results afterSecondRun = [failed; failed; ready; idle; idle; idle].
Proof.
  split; [| by vm_compute].
  do 2 apply reachable_run_events. apply withPhotos_reachable.
Qed.

(** ** Failure isolation (C6) *)

(** A completion leaves the other records and the other pending calls as
    they are: nothing is cancelled and no sibling is rewritten. *)
Lemma settle_leaves_siblings k o s c :
  pending s !! k = Some c →
  pending (settle k o s) = delete k (pending s) ∧
  ∀ j, j ≠ call_index c → results (settle k o s) !! j = results s !! j.
Proof.
  intros Hk. split; [by eapply pending_settle |].
  intros j Hj. by eapply settle_other_slot.
Qed.

(** On the initial records the scenario of the claim comes out as stated. *)
Example runAge15Fails_fresh :
  status <$> results (run_events runAge15Fails withPhotos)
  = [ready; failed; ready; idle; idle; idle].
Proof. by vm_compute. Qed.

(** C6: the claim asks that the final status of each task depends only on
    the outcome of its own call, so that with age 15 failing and ages 5 and
    25 succeeding the tasks end ready, failed, ready.  Evaluated after an
    earlier run in which age 5 had failed: the call for age 5 succeeds and
    stores its image, yet the record keeps the earlier error and the card
    shows it as failed. *)
Theorem status_depends_on_previous_run :
  let s := run_events runAge15Fails (run_events firstRunAge5Fails withPhotos) in
  reachable s ∧
  generatingTarget s = None ∧
  results s !! 0%nat =
    Some (mkResult boy 5 (Some "data:image/png;base64,DDDD") false
            (Some "Failed to generate")) ∧
  status <$> results s = [failed; failed; ready; idle; idle; idle].
Proof.
  split; [| by vm_compute].
  do 2 apply reachable_run_events. apply withPhotos_reachable.
Qed.

(** ** Rejected invocations (C4) *)

(** C4: with a parent photo missing [generatePrediction] only reports the
    missing input, and with both photos present but no API key it only
    reports the missing key; in either case the six records, the busy flag,
    the pending calls and the log are left as they were, so a flag that was
    clear stays clear. *)
Theorem missing_input_or_credential_changes_nothing g s :
  (fatherImg s = None ∨ motherImg s = None →
     generatePrediction g s
     = setError (Some "Please upload photos of both parents first.") s) ∧
  (fatherImg s ≠ None → motherImg s ≠ None → truthy (apiKey s) = false →
     generatePrediction g s = setError (Some "API Key is missing.") s) ∧
  (fatherImg s = None ∨ motherImg s = None ∨ truthy (apiKey s) = false →
     results (generatePrediction g s) = results s ∧
     generatingTarget (generatePrediction g s) = generatingTarget s ∧
     pending (generatePrediction g s) = pending s ∧
     console (generatePrediction g s) = console s ∧
     is_Some (appError (generatePrediction g s)) ∧
     (generatingTarget s = None →
      generatingTarget (generatePrediction g s) = None)).
Proof.
  unfold generatePrediction. split_and!.
  - intros [-> | Hm]; [done |]. rewrite Hm. by destruct (fatherImg s).
  - intros Hf Hm Hk. destruct (fatherImg s); [| done].
    destruct (motherImg s); [| done]. by rewrite Hk.
  - intros H.
    destruct (fatherImg s) as [f |]; [| by split_and!].
    destruct (motherImg s) as [m |]; [| by split_and!].
    destruct H as [H | [H | H]]; [done | done |].
    rewrite H. by split_and!.
Qed.

Lemma missing_input_or_credential_changes_nothing_witness :
  (fatherImg fatherOnly = None ∨ motherImg fatherOnly = None) ∧
  generatePrediction boy fatherOnly
  = setError (Some "Please upload photos of both parents first.") fatherOnly ∧
  (fatherImg noKey ≠ None ∧ motherImg noKey ≠ None ∧
   truthy (apiKey noKey) = false) ∧
  generatePrediction boy noKey = setError (Some "API Key is missing.") noKey ∧
  results (generatePrediction boy noKey) = initialResults ∧
  generatingTarget (generatePrediction boy noKey) = None.
Proof.
  assert (H1 : fatherImg fatherOnly = None ∨ motherImg fatherOnly = None)
    by (right; reflexivity).
  assert (H2 : fatherImg noKey ≠ None) by (vm_compute; discriminate).
  assert (H3 : motherImg noKey ≠ None) by (vm_compute; discriminate).
  assert (H4 : truthy (apiKey noKey) = false) by reflexivity.
  pose proof (missing_input_or_credential_changes_nothing boy fatherOnly) as (Ha & _ & _).
  pose proof (missing_input_or_credential_changes_nothing boy noKey) as (_ & Hb & Hc).
  specialize (Hc (or_intror (or_intror H4))) as (Hr & _ & _ & _ & _ & Hg).
  split_and!; [exact H1 | exact (Ha H1) | exact H2 | exact H3 | exact H4
              | exact (Hb H2 H3 H4) | exact Hr | exact (Hg eq_refl)].
Defined.

(** ** The trigger buttons (C3) *)

(** C3 as stated fails: with both photos present and the son run in flight,
    the daughter button is disabled as well. *)
Lemma other_gender_button_disabled_while_busy :
  ¬ (∀ s g g',
       reachable s → fatherImg s ≠ None → motherImg s ≠ None →
       generatingTarget s = Some g → g' ≠ g → buttonDisabled g' s = false).
Proof.
  intros H.
  specialize (H sonRunning boy girl sonRunning_reachable).
  assert (Hd : buttonDisabled girl sonRunning = true) by reflexivity.
  rewrite H in Hd; [discriminate | vm_compute; discriminate
                   | vm_compute; discriminate | reflexivity | discriminate].
Qed.

(** C3, amended: both buttons carry the same condition.  A button is enabled
    exactly when no run is in flight and both photos are present; while a
    run for either gender is in flight both buttons are disabled, so the
    pending calls of a reachable state all belong to one run of one gender. *)
Theorem button_enabled_iff_idle_with_photos s g :
  (buttonDisabled g s = false ↔
     generatingTarget s = None ∧ fatherImg s ≠ None ∧ motherImg s ≠ None) ∧
  (∀ g0 g', generatingTarget s = Some g0 → buttonDisabled g' s = true) ∧
  (reachable s → ∀ c c', c ∈ pending s → c' ∈ pending s →
     call_run c = call_run c' ∧ gender (call_item c) = gender (call_item c')
     ∧ generatingTarget s = Some (gender (call_item c))).
Proof.
  split_and!.
  - apply buttonDisabled_false.
  - intros g0 g' Hg. apply not_false_iff_true.
    intros [Hn _]%buttonDisabled_false. by rewrite Hn in Hg.
  - intros Hs c c' Hc Hc'. apply reachable_barrier in Hs.
    unfold barrier in Hs. destruct (generatingTarget s) as [g0 |].
    + destruct Hs as (_ & Hgen & Hrun & _). split_and!.
      * by apply Hrun.
      * by rewrite (Hgen c Hc), (Hgen c' Hc').
      * by rewrite (Hgen c Hc).
    + destruct Hs as [Hp _]. rewrite Hp in Hc. by apply elem_of_nil in Hc.
Qed.

Lemma button_enabled_iff_idle_with_photos_witness :
  buttonDisabled girl sonRunning = true ∧
  buttonDisabled boy sonRunning = true ∧
  buttonDisabled girl withPhotos = false.
Proof.
  pose proof (button_enabled_iff_idle_with_photos sonRunning boy) as (_ & H & _).
  pose proof (button_enabled_iff_idle_with_photos withPhotos girl) as (H' & _ & _).
  split_and!; [exact (H boy girl eq_refl) | exact (H boy boy eq_refl) |].
  apply H'. split_and!; [reflexivity | vm_compute; discriminate
                        | vm_compute; discriminate].
Defined.

(** ** The fan-in barrier (C7) *)

(** A run started from the buttons spawns one call per record of the gender:
    three of them. *)
Lemma click_spawns_three g s :
  reachable s → buttonDisabled g s = false → truthy (apiKey s) = true →
  generatingTarget (click g s) = Some g ∧ length (pending (click g s)) = 3%nat.
Proof.
  intros Hs Hd Hk.
  pose proof (reachable_shape s Hs) as Hsh.
  pose proof (reachable_barrier s Hs) as Hb.
  unfold click. rewrite Hd.
  apply buttonDisabled_false in Hd as (Hgt & Hf & Hm).
  unfold barrier in Hb. rewrite Hgt in Hb. destruct Hb as [Hp _].
  unfold generatePrediction.
  destruct (fatherImg s) as [f |]; [| done].
  destruct (motherImg s) as [m |]; [| done].
  rewrite Hk, Hp. simpl.
  assert (Hlen : length (tasksFor g (results s)) = 3%nat).
  { pose proof (shape_ident s Hsh) as Hid.
    destruct (results s) as [| r0 [| r1 [| r2 [| r3 [| r4 [| r5 [| r6 rs]]]]]]];
      try discriminate Hid.
    injection Hid as H0 H0' H1 H1' H2 H2' H3 H3' H4 H4' H5 H5'.
    unfold tasksFor. simpl. rewrite !filter_cons, filter_nil. simpl.
    rewrite H0, H1, H2, H3, H4, H5. by destruct g. }
  rewrite pending_joinRun. simpl. rewrite length_fmap. split; [| done].
  unfold joinRun. destruct (runSettled _ _) eqn:Hrs; [| done].
  exfalso. rewrite runSettled_true in Hrs. simpl in Hrs.
  destruct (tasksFor g (results s)) as [| t ts]; [done |].
  by apply (Hrs (spawn (nextRun s) f m (fatherDominance s) t)); [left |].
Qed.

(** C7: in every reachable state the flag names gender [g] exactly when
    some record of [g] is loading; it is clear exactly when no record is
    loading, and then no call is pending; every pending call has its record
    loading; and a run started from an enabled button has three calls in
    flight under the flag.  So the flag is cleared only once all three calls
    of the run have settled. *)
Theorem busy_flag_matches_loading s g :
  reachable s →
  (generatingTarget s ≠ Some g ↔
     ∀ r, r ∈ results s → gender r = g → loading r = false) ∧
  (generatingTarget s = None ↔ ∀ r, r ∈ results s → loading r = false) ∧
  (generatingTarget s = None → pending s = []) ∧
  (∀ c, c ∈ pending s →
     ∃ r, results s !! call_index c = Some r ∧ loading r = true) ∧
  (buttonDisabled g s = false → truthy (apiKey s) = true →
     generatingTarget (step (Click g) s) = Some g ∧
     length (pending (step (Click g) s)) = 3%nat).
Proof.
  intros Hs.
  pose proof (reachable_shape s Hs) as Hsh.
  pose proof (reachable_barrier s Hs) as Hb.
  assert (Hcall : ∀ c, c ∈ pending s →
            ∃ r, results s !! call_index c = Some r ∧ loading r = true
                 ∧ gender r = gender (call_item c)).
  { intros c Hc. pose proof (shape_calls s Hsh c Hc) as Hid.
    destruct (results s !! call_index c) as [r |] eqn:Hr; [| done].
    exists r. injection Hid as Hg _. split_and!; [done | | done].
    unfold barrier in Hb. destruct (generatingTarget s).
    - destruct Hb as (_ & _ & _ & _ & Hload). apply (Hload _ _ Hr).
      by apply list_elem_of_fmap_2.
    - destruct Hb as [Hp _]. rewrite Hp in Hc. by apply elem_of_nil in Hc. }
  assert (Hnone : generatingTarget s = None →
            pending s = [] ∧ ∀ r, r ∈ results s → loading r = false).
  { intros Hgt. unfold barrier in Hb. rewrite Hgt in Hb.
    destruct Hb as [Hp Hl]. split; [done |]. by apply Forall_forall. }
  assert (Hsome : ∀ g0, generatingTarget s = Some g0 →
            ∃ r, r ∈ results s ∧ gender r = g0 ∧ loading r = true).
  { intros g0 Hgt. unfold barrier in Hb. rewrite Hgt in Hb.
    destruct Hb as (Hne & Hgen & _).
    destruct (pending s) as [| c cs]; [done |].
    assert (Hc : c ∈ c :: cs) by left.
    destruct (Hcall c Hc) as (r & Hr & Hl & Hg).
    exists r. split_and!; [by eapply list_elem_of_lookup_2 | | done].
    rewrite Hg. by apply Hgen. }
  split_and!.
  - split.
    + intros Hne r Hr Hg. destruct (loading r) eqn:Hl; [| done]. exfalso.
      destruct (generatingTarget s) as [g0 |] eqn:Hgt.
      * apply list_elem_of_lookup_1 in Hr as [i Hi].
        unfold barrier in Hb. rewrite Hgt in Hb.
        destruct Hb as (_ & Hgen & _ & _ & Hload).
        apply (Hload i r Hi) in Hl.
        apply list_elem_of_fmap in Hl as (c & -> & Hc).
        pose proof (shape_calls s Hsh c Hc) as Hid. rewrite Hi in Hid.
        injection Hid as Hg' _. apply Hne. f_equal.
        by rewrite <- (Hgen c Hc), <- Hg', Hg.
      * destruct (Hnone eq_refl) as [_ Hall]. by rewrite (Hall r Hr) in Hl.
    + intros Hall Hgt. destruct (Hsome g Hgt) as (r & Hr & Hg & Hl).
      by rewrite (Hall r Hr Hg) in Hl.
  - split.
    + intros Hgt. by apply Hnone.
    + intros Hall. destruct (generatingTarget s) as [g0 |] eqn:Hgt; [| done].
      destruct (Hsome g0 eq_refl) as (r & Hr & _ & Hl).
      by rewrite (Hall r Hr) in Hl.
  - intros Hgt. by apply Hnone.
  - intros c Hc. destruct (Hcall c Hc) as (r & Hr & Hl & _). eauto.
  - intros Hd Hk. simpl. by apply click_spawns_three.
Qed.

Lemma busy_flag_matches_loading_witness :
  reachable sonPartly ∧
  generatingTarget sonPartly = Some boy ∧
  (∀ r, r ∈ results sonPartly → gender r = girl → loading r = false) ∧
  length (pending (step (Click girl) withPhotos)) = 3%nat.
Proof.
  pose proof (busy_flag_matches_loading sonPartly girl sonPartly_reachable)
    as (H1 & _).
  pose proof (busy_flag_matches_loading withPhotos girl withPhotos_reachable)
    as (_ & _ & _ & _ & H5).
  split_and!; [exact sonPartly_reachable | reflexivity | |].
  - apply H1. discriminate.
  - apply H5; reflexivity.
Defined.

(** ** The frame of a run (C5) *)

(** Starting a run rewrites no record of the other gender. *)
Lemma generatePrediction_frame g s i r :
  results s !! i = Some r → gender r ≠ g →
  results (generatePrediction g s) !! i = Some r.
Proof.
  intros Hr Hg. unfold generatePrediction.
  destruct (fatherImg s); [| done]. destruct (motherImg s); [| done].
  destruct (truthy (apiKey s)); [| done].
  rewrite results_joinRun. simpl. unfold beginRun.
  rewrite list_lookup_fmap, Hr. simpl. unfold resetItem.
  by case_decide.
Qed.

(** A completion rewrites no record of a gender other than its own. *)
Lemma settle_frame k o s c i r :
  shape s → pending s !! k = Some c →
  results s !! i = Some r → gender r ≠ gender (call_item c) →
  results (settle k o s) !! i = Some r.
Proof.
  intros Hs Hk Hr Hg.
  rewrite (settle_other_slot k o s c i Hk); [done |].
  intros ->. apply list_elem_of_lookup_2 in Hk.
  pose proof (shape_calls s Hs c Hk) as Hid. rewrite Hr in Hid.
  injection Hid as Hg' _. done.
Qed.

Lemma pending_generatePrediction_gender g s :
  pending s = [] →
  ∀ c, c ∈ pending (generatePrediction g s) → gender (call_item c) = g.
Proof.
  intros Hp c. unfold generatePrediction.
  destruct (fatherImg s) as [f |]; [| simpl; rewrite Hp; by intros ?%elem_of_nil].
  destruct (motherImg s) as [m |]; [| simpl; rewrite Hp; by intros ?%elem_of_nil].
  destruct (truthy (apiKey s)); [| simpl; rewrite Hp; by intros ?%elem_of_nil].
  rewrite pending_joinRun. simpl. rewrite Hp. simpl.
  by intros (_ & Hg & _)%elem_of_spawn.
Qed.

(** While only calls of gender [g] are pending, no event other than a click
    rewrites a record of the other gender. *)
Lemma frame_step g e s :
  shape s → (∀ c, c ∈ pending s → gender (call_item c) = g) →
  isClick e = false →
  (∀ c, c ∈ pending (step e s) → gender (call_item c) = g) ∧
  (∀ i r, results s !! i = Some r → gender r ≠ g →
          results (step e s) !! i = Some r).
Proof.
  intros Hs Hgen He. destruct e as [g' | k o | p img | | w]; simpl;
    [done | | by destruct p | done | done].
  destruct (pending s !! k) as [c |] eqn:Hk.
  - split.
    + intros c'. rewrite (pending_settle k o s c Hk).
      intros Hc'%list_elem_of_delete_inv. by apply Hgen.
    + intros i r Hr Hg. eapply settle_frame; [done .. |].
      rewrite (Hgen c); [done |]. by eapply list_elem_of_lookup_2.
  - by rewrite settle_out_of_range.
Qed.

Lemma frame_run g evs s :
  shape s → (∀ c, c ∈ pending s → gender (call_item c) = g) →
  Forall (λ e, isClick e = false) evs →
  ∀ i r, results s !! i = Some r → gender r ≠ g →
         results (run_events evs s) !! i = Some r.
Proof.
  revert s. induction evs as [| e evs IH]; intros s Hs Hgen Hev i r Hr Hg;
    simpl; [done |].
  apply Forall_cons in Hev as [He Hev].
  destruct (frame_step g e s Hs Hgen He) as [Hgen' Hfr].
  apply IH; [by apply shape_step | done | done | by apply Hfr | done].
Qed.

(** C5: a run for gender [g], started when no other run is in flight, and
    followed by any completions in any order with any outcomes (and by any
    uploads or slider moves), leaves every record of the other gender equal
    to what it was before the run, at every point of the run and after it. *)
Theorem run_leaves_other_gender_unchanged s g evs i r :
  reachable s → generatingTarget s = None →
  Forall (λ e, isClick e = false) evs →
  results s !! i = Some r → gender r ≠ g →
  results (run_events evs (generatePrediction g s)) !! i = Some r.
Proof.
  intros Hs Hgt Hev Hr Hg.
  pose proof (reachable_barrier s Hs) as Hb.
  unfold barrier in Hb. rewrite Hgt in Hb. destruct Hb as [Hp _].
  apply (frame_run g); [| | done | | done].
  - apply shape_generatePrediction. by apply reachable_shape.
  - by apply pending_generatePrediction_gender.
  - by apply generatePrediction_frame.
Qed.

Lemma run_leaves_other_gender_unchanged_witness :
  let evs := [Settle 1 unavailable; Slide 30;
              Settle 0 (imageResponse "image/png" "AAAA")] in
  results withPhotos !! 3%nat = Some (mkResult girl 5 None false None) ∧
  results (run_events evs (generatePrediction boy withPhotos)) !! 3%nat
  = Some (mkResult girl 5 None false None).
Proof.
  split; [reflexivity |].
  apply (run_leaves_other_gender_unchanged withPhotos boy);
    [exact withPhotos_reachable | reflexivity | | reflexivity | discriminate].
  repeat constructor.
Defined.

(** ** Invocation while a run is in flight (C2) *)

(** C2 as stated fails: the handler has no busy check.  Invoked for the
    gender whose run is in flight, it reports no error, puts the record that
    had already been delivered back to loading and issues three more calls. *)
Lemma reinvocation_while_busy_not_rejected :
  ¬ (∀ s g, reachable s → generatingTarget s = Some g →
            results (generatePrediction g s) = results s ∧
            pending (generatePrediction g s) = pending s).
Proof.
  intros H.
  destruct (H sonPartly boy sonPartly_reachable eq_refl) as [Hr _].
  apply (f_equal (λ l, loading <$> l !! 0%nat)) in Hr.
  vm_compute in Hr. discriminate.
Qed.

Example reinvocation_while_busy_effects :
  generatingTarget sonPartly = Some boy ∧
  length (pending sonPartly) = 2%nat ∧
  length (pending (generatePrediction boy sonPartly)) = 5%nat ∧
  appError (generatePrediction boy sonPartly) = None ∧
  status <$> results sonPartly = [ready; isLoading; isLoading; idle; idle; idle] ∧
  status <$> results (generatePrediction boy sonPartly)
  = [isLoading; isLoading; isLoading; idle; idle; idle].
Proof. by vm_compute. Qed.

Lemma settle_all_reachable kos s s' :
  reachable s → settle_all kos s = Some s' → reachable s'.
Proof.
  revert s. induction kos as [| [k o] rest IH]; intros s Hs; simpl.
  - by intros [= <-].
  - case_decide; [| done]. apply IH. by apply (reachable_step (Settle k o)).
Qed.

Lemma settle_all_length kos s s' :
  settle_all kos s = Some s' →
  length (pending s) = (length kos + length (pending s'))%nat.
Proof.
  revert s. induction kos as [| [k o] rest IH]; intros s; simpl.
  - by intros [= <-].
  - case_decide as Hk; [| done]. intros Hrest. apply IH in Hrest.
    destruct (lookup_lt_is_Some_2 _ _ Hk) as [c Hc].
    rewrite (pending_settle k o s c Hc), length_delete in Hrest by eauto.
    lia.
Qed.

(** Completions delivered to the head of the queue are always accepted. *)
Lemma settle_all_head os s :
  length os = length (pending s) →
  is_Some (settle_all (pair 0%nat <$> os) s).
Proof.
  revert s. induction os as [| o os IH]; intros s Hlen; simpl; [eauto |].
  simpl in Hlen. case_decide as Hk; [| lia].
  apply IH. destruct (lookup_lt_is_Some_2 _ _ Hk) as [c Hc].
  rewrite (pending_settle 0 o s c Hc), length_delete by eauto. lia.
Qed.

Lemma tasksFor_length g s :
  shape s → length (tasksFor g (results s)) = 3%nat.
Proof.
  intros Hsh. pose proof (shape_ident s Hsh) as Hid.
  destruct (results s) as [| r0 [| r1 [| r2 [| r3 [| r4 [| r5 [| r6 rs]]]]]]];
    try discriminate Hid.
  injection Hid as H0 H0' H1 H1' H2 H2' H3 H3' H4 H4' H5 H5'.
  unfold tasksFor. simpl. rewrite !filter_cons, filter_nil. simpl.
  rewrite H0, H1, H2, H3, H4, H5. by destruct g.
Qed.

(** While a run is in flight both photos and the key are there. *)
Lemma busy_has_inputs s :
  reachable s → generatingTarget s ≠ None →
  is_Some (fatherImg s) ∧ is_Some (motherImg s) ∧ truthy (apiKey s) = true.
Proof.
  induction 1 as [key | e s Hs IH]; [done |].
  destruct e as [g | k o | p img | | w]; simpl; [| | | done | done].
  - unfold click. destruct (buttonDisabled g s) eqn:Hd; [done |].
    apply buttonDisabled_false in Hd as (Hgt & _ & _).
    unfold generatePrediction.
    destruct (fatherImg s) as [f |] eqn:Ef;
      [| simpl; rewrite Hgt; by intros H].
    destruct (motherImg s) as [m |] eqn:Em;
      [| simpl; rewrite Hgt; by intros H].
    destruct (truthy (apiKey s)) eqn:Ek; [| simpl; rewrite Hgt; by intros H].
    unfold joinRun. destruct (runSettled _ _); simpl; rewrite Ef, Em, Ek;
      eauto.
  - unfold settle. destruct (pending s !! k) as [c |]; [| done].
    unfold joinRun, settleCall.
    destruct (afterAwait o); destruct (runSettled _ _); simpl;
      first [exact IH | by intros H].
  - destruct p; simpl; intros H; destruct (IH H) as (Hf & Hm & Hk);
      split_and!; eauto.
Qed.

(** With both photos and the key present the handler starts a run, whatever
    the flag says. *)
Lemma generatePrediction_starts_run g s f m :
  shape s → fatherImg s = Some f → motherImg s = Some m →
  truthy (apiKey s) = true →
  appError (generatePrediction g s) = None ∧
  generatingTarget (generatePrediction g s) = Some g ∧
  results (generatePrediction g s) = beginRun g (results s) ∧
  (∀ r, r ∈ results (generatePrediction g s) → gender r = g →
        loading r = true ∧ imageUrl r = None ∧ error r = None) ∧
  pending (generatePrediction g s)
  = pending s ++ (spawn (nextRun s) f m (fatherDominance s)
                    <$> tasksFor g (results s)) ∧
  length (pending (generatePrediction g s)) = (length (pending s) + 3)%nat.
Proof.
  intros Hsh Hf Hm Hk.
  pose proof (tasksFor_length g s Hsh) as Hlen.
  unfold generatePrediction. rewrite Hf, Hm, Hk.
  rewrite results_joinRun, pending_joinRun. simpl.
  assert (Hflag : ∀ st, generatingTarget st = Some g → pending st
            = pending s ++ (spawn (nextRun s) f m (fatherDominance s)
                              <$> tasksFor g (results s)) →
            generatingTarget (joinRun (nextRun s) st) = Some g
            ∧ appError (joinRun (nextRun s) st) = appError st).
  { intros st Hst Hpst. unfold joinRun.
    destruct (runSettled (nextRun s) st) eqn:Hrs; [| done].
    exfalso. rewrite runSettled_true, Hpst in Hrs.
    destruct (tasksFor g (results s)) as [| t ts]; [done |].
    apply (Hrs (spawn (nextRun s) f m (fatherDominance s) t)); [| done].
    apply elem_of_app. right. left. }
  edestruct Hflag as [Hg Ha]; [| | rewrite Hg, Ha]; [done | done |].
  split_and!; try done.
  - intros r (r0 & -> & _)%list_elem_of_fmap Hg0.
    unfold resetItem in *. by case_decide.
  - rewrite length_app, length_fmap, Hlen. done.
Qed.

(** C2, amended: [generatePrediction] has no busy check and reports no
    error of that kind: with both photos and the key present its result does
    not depend on the flag, and the only messages it ever sets are the two
    of its own checks.  What prevents a second run is the view.  In every
    reachable state with a run in flight a click on either button is not
    delivered and changes nothing, and the calls of the run in flight,
    completing in any order with any outcomes, all settle: after as many
    completions as there are pending calls no call is pending, no record is
    loading and the flag is clear.  Such a sequence of completions exists
    for every choice of outcomes.  In such a state both photos and the key
    are present, and the handler called directly, for either gender, starts
    another run: it clears the banner, puts all records of that gender back
    to loading with no image and no error, and adds three calls to the
    pending ones. *)
Theorem click_while_busy_is_ignored s g :
  reachable s → generatingTarget s = Some g →
  (∀ g', step (Click g') s = s) ∧
  (∀ kos s', settle_all kos s = Some s' → length kos = length (pending s) →
     pending s' = [] ∧ generatingTarget s' = None ∧
     ∀ r, r ∈ results s' → loading r = false) ∧
  (∀ os, length os = length (pending s) →
     is_Some (settle_all (pair 0%nat <$> os) s)) ∧
  (∀ s0 g0 t,
     is_Some (fatherImg s0) → is_Some (motherImg s0) →
     truthy (apiKey s0) = true →
     generatePrediction g0 (setGeneratingTarget t s0)
     = generatePrediction g0 s0) ∧
  (∀ s0 g0,
     appError (generatePrediction g0 s0) = None ∨
     appError (generatePrediction g0 s0) = Some "API Key is missing." ∨
     appError (generatePrediction g0 s0)
     = Some "Please upload photos of both parents first.") ∧
  (∃ f m,
     fatherImg s = Some f ∧ motherImg s = Some m ∧
     truthy (apiKey s) = true ∧
     ∀ g',
       appError (generatePrediction g' s) = None ∧
       generatingTarget (generatePrediction g' s) = Some g' ∧
       results (generatePrediction g' s) = beginRun g' (results s) ∧
       (∀ r, r ∈ results (generatePrediction g' s) → gender r = g' →
             loading r = true ∧ imageUrl r = None ∧ error r = None) ∧
       pending (generatePrediction g' s)
       = pending s ++ (spawn (nextRun s) f m (fatherDominance s)
                         <$> tasksFor g' (results s)) ∧
       length (pending (generatePrediction g' s))
       = (length (pending s) + 3)%nat).
Proof.
  intros Hs Hgt. split_and!.
  - intros g'. simpl. unfold click.
    destruct (buttonDisabled g' s) eqn:Hd; [done |].
    apply buttonDisabled_false in Hd as [Hn _]. by rewrite Hn in Hgt.
  - intros kos s' Hall Hlen.
    pose proof (settle_all_length kos s s' Hall) as Hl.
    assert (Hp : pending s' = []) by (apply length_zero_iff_nil; lia).
    pose proof (reachable_barrier s' (settle_all_reachable kos s s' Hs Hall)) as Hb.
    unfold barrier in Hb. destruct (generatingTarget s') as [g0 |].
    + by destruct Hb as [Hne _].
    + destruct Hb as [_ Hload]. split_and!; [done | done |].
      by apply Forall_forall.
  - intros os Hlen. by apply settle_all_head.
  - intros s0 g0 t [f Hf] [m Hm] Hk. unfold generatePrediction. simpl.
    by rewrite Hf, Hm, Hk.
  - intros s0 g0. unfold generatePrediction.
    destruct (fatherImg s0); [| right; by right].
    destruct (motherImg s0); [| right; by right].
    destruct (truthy (apiKey s0)); [| right; by left].
    left. unfold joinRun. by destruct (runSettled _ _).
  - destruct (busy_has_inputs s Hs) as ([f Hf] & [m Hm] & Hk);
      [by rewrite Hgt |].
    exists f, m. split_and!; [done | done | done |].
    intros g'. apply generatePrediction_starts_run; [| done | done | done].
    by apply reachable_shape.
Qed.

Lemma click_while_busy_is_ignored_witness :
  generatingTarget sonPartly = Some boy ∧
  step (Click boy) sonPartly = sonPartly ∧
  is_Some (settle_all [(0%nat, unavailable);
                       (0%nat, imageResponse "image/png" "CCCC")] sonPartly).
Proof.
  pose proof (click_while_busy_is_ignored sonPartly boy sonPartly_reachable eq_refl)
    as (H1 & _ & H3 & _).
  split_and!; [reflexivity | exact (H1 boy) |].
  exact (H3 [unavailable; imageResponse "image/png" "CCCC"] eq_refl).
Defined.

(** ** The instruction text (C8) *)




Example prompt_son25_70 :
  prompt son25 70 = "
          Generate a photorealistic portrait of a 25-year-old man.
          This person is the hypothetical child of the two people in the provided images.
          
          Blend the physical facial features of the first image (father) and the second image (mother).
          The facial structure and features should resemble the father by approximately 70% and the mother by approximately 30%.
          
          Ensure the image is high quality, clear, and has a neutral background. 
          Focus on facial accuracy and genetic blending.
        ".
Proof. by vm_compute. Qed.

(** ** Reading the response (C9, C10) *)

(** The image the handler takes is the first one of the whole response. *)
Lemma firstImageIs_allParts r b :
  firstImageIs r b →
  ∃ pre p post, allParts r = pre ++ p :: post ∧
    Forall (λ q, inlineData q = None) pre ∧ inlineData p = Some b.
Proof.
  intros (cand & cs & ct & pre & p & post & Hc & Hct & Hps & Hpre & Hp).
  exists pre, p, (post ++ allParts (mkResponse (Some cs))).
  split; [| done].
  unfold allParts. rewrite Hc. simpl. rewrite Hct. simpl. rewrite Hps. simpl.
  by rewrite <- app_assoc.
Qed.

Lemma scanParts_first pre p b post :
  Forall (λ q, inlineData q = None) pre → inlineData p = Some b →
  scanParts (pre ++ p :: post) = urlPrefix +:+ template_str (blob_data b).
Proof.
  intros Hpre Hp. induction Hpre as [| q pre Hq _ IH]; simpl.
  - by rewrite Hp.
  - by rewrite Hq.
Qed.

Lemma afterAwait_success_iff o u :
  afterAwait o = inr u ↔
  ∃ r b, o = Fulfilled r ∧ firstImageIs r b ∧
         u = urlPrefix +:+ template_str (blob_data b).
Proof.
  split.
  - unfold afterAwait. destruct o as [e | r]; simpl; [done |].
    unfold parseResponse.
    destruct (candidates r) as [[| cand cs] |] eqn:Hc; simpl; try done.
    destruct (content cand) as [ct |] eqn:Hct; simpl; try done.
    destruct (parts ct) as [ps |] eqn:Hps; simpl; try done.
    destruct (scanParts_cases ps)
      as [[-> _] | (pre & p & b & post & -> & Hpre & Hp & ->)];
      simpl; [done |].
    intros [= <-]. exists r, b. split_and!; [done | | done].
    exists cand, cs, ct, pre, p, post. by split_and!.
  - intros (r & b & -> & (cand & cs & ct & pre & p & post & Hc & Hct & Hps & Hpre & Hp) & ->).
    unfold afterAwait, parseResponse; simpl. rewrite Hc, Hct, Hps. simpl.
    by rewrite (scanParts_first pre p b post Hpre Hp).
Qed.

Lemma afterAwait_no_image r :
  ¬ hasImage r → ∃ err, afterAwait (Fulfilled r) = inl err.
Proof.
  intros Hno. destruct (afterAwait (Fulfilled r)) as [err | u] eqn:Ho; [eauto |].
  exfalso. apply Hno.
  apply afterAwait_success_iff in Ho
    as (r' & b & [= <-] & (cand & cs & ct & pre & p & post & Hc & Hct & Hps & _ & Hp) & _).
  exists (cand :: cs), cand, ct, (pre ++ p :: post), p, b.
  split_and!; try done; [left |].
  apply elem_of_app. right. left.
Qed.

Lemma console_settle k o s c :
  pending s !! k = Some c →
  console (settle k o s)
  = match afterAwait o with
    | inl err => err :: console s
    | inr _ => console s
    end.
Proof.
  intros Hk. unfold settle. rewrite Hk, console_joinRun.
  unfold settleCall. by destruct (afterAwait o).
Qed.

(** C9 as stated fails: the first image a response returns is not always
    extracted.  When the first candidate has only text and the image comes
    in the second candidate, the completion fails. *)
Lemma later_candidate_image_is_not_extracted :
  ¬ (∀ r pre p b post,
       allParts r = pre ++ p :: post →
       Forall (λ q, inlineData q = None) pre → inlineData p = Some b →
       afterAwait (Fulfilled r)
       = inr (urlPrefix +:+ template_str (blob_data b))).
Proof.
  intros H.
  specialize (H lateImage
                [mkPart None (Some "No picture in this one.")]
                (mkPart (Some (mkBlob (Some "image/png") (Some "AAAA"))) None)
                (mkBlob (Some "image/png") (Some "AAAA")) []
                eq_refl).
  assert (Hfail : afterAwait (Fulfilled lateImage)
                  = inl (Error "No image generated")) by reflexivity.
  rewrite Hfail in H. discriminate H; [by repeat constructor | done].
Qed.

Example lateImage_has_image_but_fails :
  hasImage lateImage ∧
  afterAwait (Fulfilled lateImage) = inl (Error "No image generated").
Proof.
  split; [| reflexivity].
  exists
    [mkCandidate (Some (mkContent (Some
       [mkPart None (Some "No picture in this one.")])));
     mkCandidate (Some (mkContent (Some
       [mkPart (Some (mkBlob (Some "image/png") (Some "AAAA"))) None])))],
    (mkCandidate (Some (mkContent (Some
       [mkPart (Some (mkBlob (Some "image/png") (Some "AAAA"))) None])))),
    (mkContent (Some
       [mkPart (Some (mkBlob (Some "image/png") (Some "AAAA"))) None])),
    [mkPart (Some (mkBlob (Some "image/png") (Some "AAAA"))) None],
    (mkPart (Some (mkBlob (Some "image/png") (Some "AAAA"))) None),
    (mkBlob (Some "image/png") (Some "AAAA")).
  split_and!; try reflexivity.
  - right. left.
  - left.
Qed.

(** C9, amended: the handler reads the first candidate only.  A completion
    succeeds exactly when the first candidate of the response has a part
    carrying an image, and the URL it stores is built from the first such
    part; candidates after the first are ignored, so an image that comes
    only in a later candidate is not extracted.  A response whose first
    candidate has no image part, in particular a response with no image at
    all, and a rejected call, fail; and every failure stores the fixed text
    Failed to generate in the task while the error itself only goes to the
    console. *)
Theorem completion_takes_first_image_or_fails_generically s k c o :
  reachable s → pending s !! k = Some c →
  (∀ u, afterAwait o = inr u ↔
        ∃ r b, o = Fulfilled r ∧ firstImageIs r b ∧
               u = urlPrefix +:+ template_str (blob_data b)) ∧
  (∀ u, afterAwait o = inr u →
        ∃ r b pre p post, o = Fulfilled r ∧ allParts r = pre ++ p :: post ∧
          Forall (λ q, inlineData q = None) pre ∧ inlineData p = Some b ∧
          u = urlPrefix +:+ template_str (blob_data b)) ∧
  (∀ u, afterAwait o = inr u →
        results (settle k o s) !! call_index c
        = Some (successItem (call_item c) u) ∧
        console (settle k o s) = console s) ∧
  (∀ r, o = Fulfilled r → ¬ hasImage r → ∃ err, afterAwait o = inl err) ∧
  (∀ err, o = Rejected err → afterAwait o = inl err) ∧
  (∀ err, afterAwait o = inl err →
        ∃ r', results (settle k o s) !! call_index c = Some r' ∧
              error r' = Some "Failed to generate" ∧
              loading r' = false ∧ status r' = failed ∧
              console (settle k o s) = err :: console s) ∧
  (∀ r, o = Fulfilled r → (∀ b, ¬ firstImageIs r b) →
        ∃ err, afterAwait o = inl err) ∧
  (∀ cand cs, o = Fulfilled (mkResponse (Some (cand :: cs))) →
        afterAwait o = afterAwait (Fulfilled (mkResponse (Some [cand])))).
Proof.
  intros Hs Hk. apply reachable_shape in Hs.
  pose proof (settle_own_slot k o s c Hs Hk) as Hslot.
  pose proof (console_settle k o s c Hk) as Hcon.
  unfold settledItem in Hslot. split_and!.
  - apply afterAwait_success_iff.
  - intros u (r & b & -> & Hfirst & ->)%afterAwait_success_iff.
    destruct (firstImageIs_allParts r b Hfirst) as (pre & p & post & H1 & H2 & H3).
    exists r, b, pre, p, post. by split_and!.
  - intros u Hu. rewrite Hu in Hslot, Hcon. done.
  - intros r -> Hno. by apply afterAwait_no_image.
  - by intros err ->.
  - intros err He. rewrite He in Hslot, Hcon.
    exists (failureItem (call_item c)). by split_and!.
  - intros r -> Hno.
    destruct (afterAwait (Fulfilled r)) as [err | u] eqn:Ho; [eauto |].
    apply afterAwait_success_iff in Ho as (r' & b & [= <-] & Hfirst & _).
    by destruct (Hno b).
  - by intros cand cs ->.
Qed.

Lemma completion_takes_first_image_or_fails_generically_witness :
  pending sonRunning !! 1%nat
  = Some (spawn 0 samplePhoto samplePhoto 50
            (1%nat, mkResult boy 15 None false None)) ∧
  (∃ r', results (settle 1 textOnlyResponse sonRunning) !! 1%nat = Some r' ∧
         error r' = Some "Failed to generate" ∧
         loading r' = false ∧ status r' = failed ∧
         console (settle 1 textOnlyResponse sonRunning)
         = [Error "No image generated"]).
Proof.
  assert (Hk : pending sonRunning !! 1%nat
               = Some (spawn 0 samplePhoto samplePhoto 50
                         (1%nat, mkResult boy 15 None false None)))
    by reflexivity.
  split; [exact Hk |].
  pose proof (completion_takes_first_image_or_fails_generically
                sonRunning 1 _ textOnlyResponse sonRunning_reachable Hk)
    as (_ & _ & _ & _ & _ & H & _).
  exact (H (Error "No image generated") eq_refl).
Defined.

(** C10: when the completion of a call leaves its record ready, the stored
    URL is the fixed prefix data:image/png;base64, followed by the data of
    the first image part of the response, so it is never empty and does not
    depend on the MIME type of that part; and an image part with any MIME
    type and any data, the empty string included, makes the record ready
    with that URL whenever the captured record carries no error; every
    image URL held by a record of a reachable state has that prefix. *)
Theorem ready_payload_is_png_data_url s k c o :
  reachable s → pending s !! k = Some c →
  (∀ r, results (settle k o s) !! call_index c = Some r → status r = ready →
        ∃ resp b, o = Fulfilled resp ∧ firstImageIs resp b ∧
          imageUrl r
          = Some ("data:image/png;base64," +:+ template_str (blob_data b)) ∧
          imageUrl r ≠ Some "" ∧ truthy (imageUrl r) = true) ∧
  (∀ mime data, truthy (error (call_item c)) = false →
        ∃ r, results (settle k (imageResponse mime data) s) !! call_index c
             = Some r ∧
             status r = ready ∧
             imageUrl r = Some ("data:image/png;base64," +:+ data)) ∧
  (∀ r u, r ∈ results s → imageUrl r = Some u →
        ∃ d, u = "data:image/png;base64," +:+ d).
Proof.
  intros Hs Hk. apply reachable_shape in Hs. split_and!.
  - intros r Hr Hst.
    rewrite (settle_own_slot k o s c Hs Hk) in Hr. injection Hr as <-.
    unfold settledItem in *.
    destruct (afterAwait o) as [err | u] eqn:Ho; [done |].
    apply afterAwait_success_iff in Ho as (resp & b & -> & Hfirst & ->).
    exists resp, b. by split_and!.
  - intros mime data He.
    rewrite (settle_own_slot k _ s c Hs Hk).
    eexists. split; [done |]. unfold settledItem. simpl.
    unfold status. simpl. rewrite He. done.
  - intros r u Hr Hu.
    pose proof (proj1 (Forall_forall _ _) (shape_items s Hs) r Hr) as Hwf.
    by apply (wf_url r Hwf).
Qed.

Lemma ready_payload_is_png_data_url_witness :
  ∃ r, results (settle 0 (imageResponse "image/jpeg" "") sonRunning) !! 0%nat
       = Some r ∧
       status r = ready ∧ imageUrl r = Some "data:image/png;base64,".
Proof.
  assert (Hk : pending sonRunning !! 0%nat
               = Some (spawn 0 samplePhoto samplePhoto 50
                         (0%nat, mkResult boy 5 None false None)))
    by reflexivity.
  pose proof (ready_payload_is_png_data_url sonRunning 0 _
                (imageResponse "image/jpeg" "") sonRunning_reachable Hk)
    as (_ & H & _).
  exact (H "image/jpeg" "" eq_refl).
Defined.

(** ** Further properties of the run *)

Lemma elem_of_insert_inv {A} (l : list A) i x y :
  y ∈ <[i:=x]> l → y = x ∨ y ∈ l.
Proof.
  intros [j Hj]%list_elem_of_lookup_1.
  apply list_lookup_insert_Some in Hj as [(_ & -> & _) | [_ Hj]]; [by left |].
  right. by eapply list_elem_of_lookup_2.
Qed.

(** In a reachable state the record of a pending call is loading. *)
Lemma pending_record_loading s c :
  reachable s → c ∈ pending s →
  ∃ r, results s !! call_index c = Some r ∧ loading r = true.
Proof.
  intros Hs Hc.
  pose proof (reachable_shape s Hs) as Hsh.
  pose proof (reachable_barrier s Hs) as Hb.
  pose proof (shape_calls s Hsh c Hc) as Hid.
  destruct (results s !! call_index c) as [r |] eqn:Hr; [| done].
  exists r. split; [done |].
  unfold barrier in Hb. destruct (generatingTarget s).
  - destruct Hb as (_ & _ & _ & _ & Hload). apply (Hload _ _ Hr).
    by apply list_elem_of_fmap_2.
  - destruct Hb as [Hp _]. rewrite Hp in Hc. by apply elem_of_nil in Hc.
Qed.

(** X1: the registry always holds the same six records, in the same order:
    no event adds, removes or renames one. *)
Theorem registry_identity_is_fixed s :
  reachable s →
  length (results s) = 6%nat ∧
  (λ r, (gender r, age r)) <$> results s
  = [(boy, 5); (boy, 15); (boy, 25); (girl, 5); (girl, 15); (girl, 25)].
Proof.
  intros Hs. apply reachable_shape in Hs.
  pose proof (shape_ident s Hs) as Hid.
  split; [| exact Hid].
  apply (f_equal length) in Hid. by rewrite !length_fmap in Hid.
Qed.

Lemma registry_identity_is_fixed_witness :
  (λ r, (gender r, age r)) <$> results afterSecondRun
  = [(boy, 5); (boy, 15); (boy, 25); (girl, 5); (girl, 15); (girl, 25)].
Proof.
  refine (proj2 (registry_identity_is_fixed afterSecondRun _)).
  do 2 apply reachable_run_events. apply withPhotos_reachable.
Defined.

(** X2: a record that is not loading is final until the next click: no
    completion, upload or slider move changes it. *)
Theorem settled_record_is_final e s i r :
  reachable s → isClick e = false →
  results s !! i = Some r → loading r = false →
  results (step e s) !! i = Some r.
Proof.
  intros Hs He Hr Hl. destruct e as [g | k o | p img | | w]; simpl;
    [done | | by destruct p | done | done].
  destruct (pending s !! k) as [c |] eqn:Hk.
  - rewrite (settle_other_slot k o s c i Hk); [done |].
    intros ->. apply list_elem_of_lookup_2 in Hk.
    destruct (pending_record_loading s c Hs Hk) as (r' & Hr' & Hl').
    rewrite Hr in Hr'. injection Hr' as <-. by rewrite Hl in Hl'.
  - by rewrite settle_out_of_range.
Qed.

Lemma settled_record_is_final_witness :
  results (step (Settle 1 unavailable) sonPartly) !! 0%nat
  = Some (mkResult boy 5 (Some "data:image/png;base64,AAAA") false None).
Proof.
  apply (settled_record_is_final (Settle 1 unavailable) sonPartly);
    [exact sonPartly_reachable | reflexivity | reflexivity | reflexivity].
Defined.

Lemma settledItem_of_clean c o :
  cleanItem (call_item c) → settledOrLoading (settledItem c o).
Proof.
  intros [Hu He]. unfold settledItem, settledOrLoading.
  destruct (afterAwait o) as [err | u] eqn:Ho.
  - right. right. unfold status; simpl. by split_and!.
  - right. left. destruct (afterAwait_inr o u Ho) as [d ->].
    unfold status; simpl. rewrite He. simpl. by split_and!.
Qed.

Lemma clean_run_settle g k o s :
  shape s →
  (∀ c, c ∈ pending s → cleanItem (call_item c) ∧ gender (call_item c) = g) →
  (∀ r, r ∈ results s → gender r = g → settledOrLoading r) →
  (∀ c, c ∈ pending (settle k o s) →
        cleanItem (call_item c) ∧ gender (call_item c) = g) ∧
  (∀ r, r ∈ results (settle k o s) → gender r = g → settledOrLoading r).
Proof.
  intros Hs Hp Hr.
  destruct (pending s !! k) as [c |] eqn:Hk.
  - split.
    + intros c'. rewrite (pending_settle k o s c Hk).
      intros Hc'%list_elem_of_delete_inv. by apply Hp.
    + intros r. rewrite (results_settle k o s c Hk).
      intros [-> | Hin]%elem_of_insert_inv Hg; [| by apply Hr].
      apply settledItem_of_clean. apply Hp. by eapply list_elem_of_lookup_2.
  - by rewrite settle_out_of_range.
Qed.

Lemma clean_run_settle_all g kos s s' :
  shape s →
  (∀ c, c ∈ pending s → cleanItem (call_item c) ∧ gender (call_item c) = g) →
  (∀ r, r ∈ results s → gender r = g → settledOrLoading r) →
  settle_all kos s = Some s' →
  ∀ r, r ∈ results s' → gender r = g → settledOrLoading r.
Proof.
  revert s. induction kos as [| [k o] rest IH]; intros s Hs Hp Hr; simpl.
  - by intros [= <-].
  - case_decide; [| done].
    destruct (clean_run_settle g k o s Hs Hp Hr) as [Hp' Hr'].
    apply IH; [by apply shape_settle | done | done].
Qed.

(** X3: a run started on records that carry nothing from an earlier run
    keeps every record of its gender consistent, at every point of the run:
    loading with no field, or ready with an image and no error, or failed
    with the fixed message and no image; once its three calls have
    completed none is loading any more. *)
Theorem run_on_clean_records_is_consistent s g kos s' :
  reachable s → buttonDisabled g s = false → truthy (apiKey s) = true →
  (∀ r, r ∈ results s → gender r = g → cleanItem r) →
  settle_all kos (click g s) = Some s' →
  (∀ r, r ∈ results s' → gender r = g → settledOrLoading r) ∧
  (length kos = 3%nat →
   ∀ r, r ∈ results s' → gender r = g → status r = ready ∨ status r = failed).
Proof.
  intros Hs Hd Hk Hclean Hall.
  pose proof (reachable_shape s Hs) as Hsh.
  pose proof (reachable_barrier s Hs) as Hb.
  destruct (click_spawns_three g s Hs Hd Hk) as [_ Hlen].
  assert (Hinv : ∀ r, r ∈ results s' → gender r = g → settledOrLoading r).
  { apply (clean_run_settle_all g kos (click g s) s'); [| | | done].
    - by apply shape_click.
    - unfold click. rewrite Hd.
      apply buttonDisabled_false in Hd as (Hgt & _).
      unfold barrier in Hb. rewrite Hgt in Hb. destruct Hb as [Hp _].
      intros c Hc. split; [| by eapply pending_generatePrediction_gender].
      unfold generatePrediction in Hc.
      destruct (fatherImg s) as [f |];
        [| simpl in Hc; rewrite Hp in Hc; by apply elem_of_nil in Hc].
      destruct (motherImg s) as [m |];
        [| simpl in Hc; rewrite Hp in Hc; by apply elem_of_nil in Hc].
      rewrite Hk, pending_joinRun in Hc. simpl in Hc. rewrite Hp in Hc.
      simpl in Hc. apply elem_of_spawn in Hc as (Hl & Hg & _).
      apply Hclean; [by eapply list_elem_of_lookup_2 | done].
    - unfold click. rewrite Hd. unfold generatePrediction.
      apply buttonDisabled_false in Hd as (_ & Hf & Hm).
      destruct (fatherImg s) as [f |]; [| done].
      destruct (motherImg s) as [m |]; [| done].
      rewrite Hk, results_joinRun. simpl.
      intros r (r0 & -> & Hr0)%list_elem_of_fmap Hg.
      unfold resetItem in *. case_decide as Hg0; [| done].
      left. by split_and!. }
  split; [done |].
  intros Hk3 r Hr Hg.
  pose proof (settle_all_length kos (click g s) s' Hall) as Hl.
  assert (Hp' : pending s' = []) by (apply length_zero_iff_nil; lia).
  assert (Hs' : reachable s').
  { eapply settle_all_reachable; [| done]. by apply (reachable_step (Click g)). }
  pose proof (reachable_barrier s' Hs') as Hb'.
  unfold barrier in Hb'. destruct (generatingTarget s') as [g0 |].
  { by destruct Hb' as [Hne _]. }
  destruct Hb' as [_ Hload].
  pose proof (proj1 (Forall_forall _ _) Hload r Hr) as Hnl. simpl in Hnl.
  destruct (Hinv r Hr Hg) as [(Hst & _) | [(Hst & _) | (Hst & _)]];
    [| by left | by right].
  unfold status in Hst. by rewrite Hnl in Hst; repeat case_match.
Qed.

Lemma run_on_clean_records_is_consistent_witness :
  mkResult boy 5 (Some "data:image/png;base64,AAAA") false None
    ∈ results afterFirstRun ∧
  (status (mkResult boy 5 (Some "data:image/png;base64,AAAA") false None) = ready ∨
   status (mkResult boy 5 (Some "data:image/png;base64,AAAA") false None) = failed).
Proof.
  assert (Hd : buttonDisabled boy withPhotos = false) by reflexivity.
  assert (Hk : truthy (apiKey withPhotos) = true) by reflexivity.
  assert (Hc : ∀ r, r ∈ results withPhotos → gender r = boy → cleanItem r).
  { intros r Hr _. vm_compute in Hr.
    repeat (apply elem_of_cons in Hr as [-> | Hr]; [by split |]).
    by apply elem_of_nil in Hr. }
  assert (Hall : settle_all
            [(0%nat, imageResponse "image/png" "AAAA"); (0%nat, unavailable);
             (0%nat, imageResponse "image/png" "CCCC")] (click boy withPhotos)
          = Some afterFirstRun) by (vm_compute; reflexivity).
  assert (Hin : mkResult boy 5 (Some "data:image/png;base64,AAAA") false None
                ∈ results afterFirstRun) by (vm_compute; left).
  split; [exact Hin |].
  exact (proj2 (run_on_clean_records_is_consistent withPhotos boy _ afterFirstRun
                  withPhotos_reachable Hd Hk Hc Hall) eq_refl _ Hin eq_refl).
Defined.

(** ** The banner, the photos and the calls *)

Lemma appError_joinRun run s : appError (joinRun run s) = appError s.
Proof. unfold joinRun. by destruct (runSettled run s). Qed.

Lemma appError_settle k o s : appError (settle k o s) = appError s.
Proof.
  unfold settle. destruct (pending s !! k); [| done].
  rewrite appError_joinRun. unfold settleCall. by destruct (afterAwait o).
Qed.

(** X4: the banner of a reachable state is empty or holds the invalid-file
    message or the missing-key message.  The message asking for both
    photos is never shown, because the buttons are disabled until both are
    there, and the failure of a task never reaches the banner. *)
Theorem banner_shows_only_upload_and_key_errors s :
  reachable s →
  (appError s = None ∨
   appError s = Some "Please upload a valid image file." ∨
   appError s = Some "API Key is missing.") ∧
  appError s ≠ Some "Please upload photos of both parents first." ∧
  appError s ≠ Some "Failed to generate".
Proof.
  intros Hs.
  assert (H : appError s = None ∨
              appError s = Some "Please upload a valid image file." ∨
              appError s = Some "API Key is missing.").
  { induction Hs as [key | e s Hs IH]; [by left |].
    destruct e as [g | k o | p img | | w]; simpl.
    - unfold click. destruct (buttonDisabled g s) eqn:Hd; [done |].
      apply buttonDisabled_false in Hd as (_ & Hf & Hm).
      unfold generatePrediction.
      destruct (fatherImg s); [| done]. destruct (motherImg s); [| done].
      destruct (truthy (apiKey s)).
      + left. by rewrite appError_joinRun.
      + right. by right.
    - by rewrite appError_settle.
    - left. by destruct p.
    - right. by left.
    - done. }
  split; [done |].
  destruct H as [-> | [-> | ->]]; by split.
Qed.

Lemma banner_shows_only_upload_and_key_errors_witness :
  appError (step (Click boy) noKey) = None ∨
  appError (step (Click boy) noKey) = Some "Please upload a valid image file." ∨
  appError (step (Click boy) noKey) = Some "API Key is missing.".
Proof.
  refine (proj1 (banner_shows_only_upload_and_key_errors (step (Click boy) noKey) _)).
  constructor. apply reachable_run_events. constructor.
Defined.

Lemma photos_step e s :
  (is_Some (fatherImg s) → is_Some (fatherImg (step e s))) ∧
  (is_Some (motherImg s) → is_Some (motherImg (step e s))).
Proof.
  destruct e as [g | k o | p img | | w]; simpl; [| | by destruct p | done | done].
  - unfold click. destruct (buttonDisabled g s); [done |].
    unfold generatePrediction.
    destruct (fatherImg s) as [f |] eqn:Hf;
      destruct (motherImg s) as [m |] eqn:Hm;
      try destruct (truthy (apiKey s));
      unfold joinRun; try destruct (runSettled _ _);
      simpl; rewrite ?Hf, ?Hm; done.
  - unfold settle. destruct (pending s !! k) as [c |]; [| done].
    unfold joinRun, settleCall.
    destruct (afterAwait o); destruct (runSettled _ _); done.
Qed.

(** X5: no event removes a photo: once uploaded, a parent's photo stays
    (or is replaced by a newer upload), so from then on a button is disabled
    exactly while a run is in flight. *)
Theorem photos_are_never_removed evs s :
  is_Some (fatherImg s) → is_Some (motherImg s) →
  is_Some (fatherImg (run_events evs s)) ∧
  is_Some (motherImg (run_events evs s)) ∧
  ∀ g, buttonDisabled g (run_events evs s)
       = bool_decide (generatingTarget (run_events evs s) ≠ None).
Proof.
  revert s. induction evs as [| e evs IH]; intros s Hf Hm; simpl.
  - split_and!; [done | done |]. intros g.
    destruct Hf as [f Hf], Hm as [m Hm].
    unfold buttonDisabled. rewrite Hf, Hm.
    destruct g; by rewrite !orb_false_r.
  - destruct (photos_step e s) as [Hf' Hm']. apply IH; auto.
Qed.

Lemma photos_are_never_removed_witness :
  is_Some (fatherImg (run_events (firstRun ++ [FileRejected; Slide 10]) withPhotos)) ∧
  is_Some (motherImg (run_events (firstRun ++ [FileRejected; Slide 10]) withPhotos)).
Proof.
  assert (Hf : is_Some (fatherImg withPhotos)) by (eexists; reflexivity).
  assert (Hm : is_Some (motherImg withPhotos)) by (eexists; reflexivity).
  destruct (photos_are_never_removed (firstRun ++ [FileRejected; Slide 10])
              withPhotos Hf Hm) as (H1 & H2 & _).
  exact (conj H1 H2).
Defined.

(** X6: only a click on an enabled button issues calls.  Any other event,
    a click on a disabled button included, leaves the pending calls a
    sub-list of what they were, each with the request it was issued with:
    a call is never repeated and never re-sent with other photos or another
    weight. *)
Theorem calls_are_issued_only_by_an_enabled_click e s :
  (isClick e = false ∨ ∃ g, e = Click g ∧ buttonDisabled g s = true) →
  pending (step e s) `sublist_of` pending s.
Proof.
  intros [He | (g & -> & Hd)].
  - destruct e as [g | k o | p img | | w]; simpl;
      [done | | by destruct p | done | done].
    destruct (pending s !! k) as [c |] eqn:Hk.
    + rewrite (pending_settle k o s c Hk). apply sublist_delete.
    + by rewrite settle_out_of_range.
  - simpl. unfold click. by rewrite Hd.
Qed.

Lemma calls_are_issued_only_by_an_enabled_click_witness :
  pending (step (FileLoaded father samplePhoto) sonRunning)
    `sublist_of` pending sonRunning ∧
  pending (step (Click girl) sonRunning) `sublist_of` pending sonRunning.
Proof.
  split.
  - apply (calls_are_issued_only_by_an_enabled_click
             (FileLoaded father samplePhoto) sonRunning). by left.
  - apply (calls_are_issued_only_by_an_enabled_click (Click girl) sonRunning).
    right. exists girl. split; reflexivity.
Defined.

(** ** What the parser reads of a response *)

Lemma scanParts_imageData ps ps' :
  imageData <$> ps = imageData <$> ps' → scanParts ps = scanParts ps'.
Proof.
  revert ps'. induction ps as [| p ps IH]; intros [| p' ps'] H; try done.
  simpl in H. injection H as Hp Hps. simpl. unfold imageData in Hp.
  destruct (inlineData p) as [b |], (inlineData p') as [b' |]; simpl in Hp;
    try done; [by injection Hp as -> | by apply IH].
Qed.

Lemma scanParts_filter ps :
  scanParts (filter (λ p, is_Some (inlineData p)) ps) = scanParts ps.
Proof.
  induction ps as [| p ps IH]; [done |].
  rewrite filter_cons. destruct (inlineData p) as [b |] eqn:Hp.
  - rewrite decide_True by (rewrite ?Hp; eauto). simpl. by rewrite ?Hp.
  - rewrite decide_False by (rewrite ?Hp; by intros [? ?]). simpl.
    by rewrite ?Hp.
Qed.

(** X7: the outcome of a fulfilled call depends only on the data of the
    image parts of the first candidate: later candidates, parts without an
    image, the text beside an image and its MIME type are all ignored. *)
Theorem completion_reads_only_first_candidate_image_data :
  (∀ cand cs,
     afterAwait (Fulfilled (mkResponse (Some (cand :: cs))))
     = afterAwait (Fulfilled (mkResponse (Some [cand])))) ∧
  (∀ ps,
     afterAwait (Fulfilled (responseOfParts
                   (filter (λ p, is_Some (inlineData p)) ps)))
     = afterAwait (Fulfilled (responseOfParts ps))) ∧
  (∀ ps ps', imageData <$> ps = imageData <$> ps' →
     afterAwait (Fulfilled (responseOfParts ps))
     = afterAwait (Fulfilled (responseOfParts ps'))).
Proof.
  split_and!.
  - done.
  - intros ps. unfold afterAwait, responseOfParts, parseResponse; simpl.
    by rewrite scanParts_filter.
  - intros ps ps' H. unfold afterAwait, responseOfParts, parseResponse; simpl.
    by rewrite (scanParts_imageData ps ps' H).
Qed.

Lemma completion_reads_only_first_candidate_image_data_witness :
  afterAwait (Fulfilled (responseOfParts
    [mkPart (Some (mkBlob (Some "image/webp") (Some "AAAA"))) (Some "caption")]))
  = afterAwait (Fulfilled (responseOfParts
    [mkPart (Some (mkBlob None (Some "AAAA"))) None])).
Proof.
  destruct completion_reads_only_first_candidate_image_data as (_ & _ & H).
  apply H. reflexivity.
Defined.

(** ** Splitting the reader's result *)



Lemma splitOn_nonempty sep s : splitOn sep s ≠ [].
Proof.
  destruct s as [| ch rest]; simpl; [done |].
  destruct (Ascii.eqb ch sep); [done |]. by destruct (splitOn sep rest).
Qed.

Lemma splitOn_free sep s : contains sep s = false → splitOn sep s = [s].
Proof.
  induction s as [| ch rest IH]; simpl; [done |].
  intros [Hc Hrest]%orb_false_iff. rewrite Hc, (IH Hrest). done.
Qed.


Lemma splitOn_segments sep s seg :
  seg ∈ splitOn sep s → contains sep seg = false.
Proof.
  revert seg. induction s as [| ch rest IH]; simpl; intros seg.
  - by intros ->%list_elem_of_singleton.
  - destruct (Ascii.eqb ch sep) eqn:Hc.
    + intros [-> | Hin]%elem_of_cons; [done | by apply IH].
    + destruct (splitOn sep rest) as [| seg0 segs] eqn:Hs.
      * intros ->%list_elem_of_singleton. simpl. by rewrite Hc.
      * intros [-> | Hin]%elem_of_cons.
        -- simpl. rewrite Hc. simpl. apply IH. left.
        -- apply IH. by right.
Qed.





(** ** The page fed by the file inputs and the range input *)

Lemma browser_inv_initial key : browser_inv (initialState key).
Proof.
  split; simpl; [done | done | lia | by intros c ?%elem_of_nil].
Qed.

Lemma browser_inv_click g s : browser_inv s → browser_inv (click g s).
Proof.
  intros [Hf Hm Hw Hr]. unfold click.
  destruct (buttonDisabled g s); [done |].
  unfold generatePrediction.
  destruct (fatherImg s) as [f |] eqn:Ef;
    [| split; simpl; rewrite ?Ef; done].
  destruct (motherImg s) as [m |] eqn:Em;
    [| split; simpl; rewrite ?Ef, ?Em; done].
  destruct (truthy (apiKey s)); [| split; simpl; rewrite ?Ef, ?Em; done].
  assert (Hnew : ∀ c,
            c ∈ pending s ++
                (spawn (nextRun s) f m (fatherDominance s)
                   <$> tasksFor g (results s)) →
            ∃ f0 m0 w, storedPhoto f0 ∧ storedPhoto m0 ∧ 0 ≤ w ≤ 100 ∧
              call_request c
              = mkRequest (inlineOf f0) (inlineOf m0) (prompt (call_item c) w)).
  { intros c [Hc | Hc]%elem_of_app; [by apply Hr |].
    apply elem_of_spawn in Hc as (_ & _ & ->).
    exists f, m, (fatherDominance s). split_and!; [by apply Hf | by apply Hm | | | done]; lia. }
  unfold joinRun. destruct (runSettled _ _);
    split; simpl; rewrite ?Ef, ?Em; done.
Qed.

Lemma browser_inv_settle k o s : browser_inv s → browser_inv (settle k o s).
Proof.
  intros [Hf Hm Hw Hr]. unfold settle.
  destruct (pending s !! k) as [c |]; [| done].
  unfold joinRun, settleCall.
  destruct (afterAwait o); destruct (runSettled _ _);
    split; simpl; try done;
    intros c' Hc'%list_elem_of_delete_inv; by apply Hr.
Qed.

Lemma browser_inv_upload file p s :
  browser_inv s → browser_inv (handleFileUpload file p s).
Proof.
  intros [Hf Hm Hw Hr]. unfold handleFileUpload.
  destruct file as [[t read] |]; [| done].
  cbn [file_type file_read].
  destruct (String.prefix "image/" t) eqn:Ht; [| done].
  unfold onloadend. destruct read as [res |]; [| done].
  assert (Hnew : storedPhoto (mkUpload res (splitOn "," res !! 1%nat) t)).
  { split_and!; [done | done |]. simpl. intros d Hd.
    eapply splitOn_segments. by eapply list_elem_of_lookup_2. }
  destruct p; split; simpl; try done; by intros img [= <-].
Qed.

Lemma browser_inv_slide w s :
  0 ≤ w ≤ 100 → browser_inv s → browser_inv (setFatherDominance w s).
Proof. intros Hw' [Hf Hm Hw Hr]. by split. Qed.

Lemma browser_reachable_inv s : browser_reachable s → browser_inv s.
Proof.
  induction 1 as [key | g s _ IH | k o s _ IH | file p s _ IH | w s _ IH Hw].
  - apply browser_inv_initial.
  - by apply browser_inv_click.
  - by apply browser_inv_settle.
  - by apply browser_inv_upload.
  - by apply browser_inv_slide.
Qed.

(** Every state of the page is a state of the event machine. *)
Lemma browser_reachable_reachable s : browser_reachable s → reachable s.
Proof.
  induction 1 as [key | g s _ IH | k o s _ IH | file p s _ IH | w s _ IH Hw].
  - constructor.
  - by apply (reachable_step (Click g)).
  - by apply (reachable_step (Settle k o)).
  - unfold handleFileUpload.
    destruct file as [[t read] |]; [| done].
    cbn [file_type file_read].
    destruct (String.prefix "image/" t);
      [| by apply (reachable_step FileRejected)].
    unfold onloadend. destruct read as [res |]; [| done].
    by apply (reachable_step (FileLoaded p _)).
  - by apply (reachable_step (Slide w)).
Qed.

Lemma sonRunning_browser_reachable : browser_reachable sonRunning.
Proof.
  apply browser_click.
  apply (browser_upload
           (Some (mkFile "image/jpeg" (Some "data:image/jpeg;base64,QUJD")))
           mother
           (fileLoaded father samplePhoto (initialState (Some "secret")))).
  apply (browser_upload
           (Some (mkFile "image/jpeg" (Some "data:image/jpeg;base64,QUJD")))
           father (initialState (Some "secret"))).
  constructor.
Qed.

Lemma splitOn_second sep s :
  splitOn sep s !! 1%nat = None ↔ contains sep s = false.
Proof.
  split.
  - induction s as [| ch rest IH]; simpl; [done |].
    destruct (Ascii.eqb ch sep); simpl.
    + pose proof (splitOn_nonempty sep rest).
      by destruct (splitOn sep rest).
    + destruct (splitOn sep rest) as [| seg segs]; [done |]. exact IH.
  - intros H. by rewrite (splitOn_free sep s H).
Qed.

(** X9: whatever files the user picks, a photo held by the page has a type
    starting with image/, its preview is the reader's result, and its data
    is the second comma-separated piece of that result: undefined exactly
    when the result holds no comma, and free of commas otherwise.  Every
    request in flight carries, for each parent, the type and the data of
    such a photo. *)
Theorem page_holds_only_image_files s :
  browser_reachable s →
  (∀ img, fatherImg s = Some img ∨ motherImg s = Some img →
     String.prefix "image/" (mimeType img) = true ∧
     base64Data img = splitOn "," (preview img) !! 1%nat ∧
     (base64Data img = None ↔ contains "," (preview img) = false) ∧
     (∀ d, base64Data img = Some d → contains "," d = false)) ∧
  (∀ c, c ∈ pending s →
     ∃ f m,
       req_father (call_request c)
       = mkBlob (Some (mimeType f)) (base64Data f) ∧
       req_mother (call_request c)
       = mkBlob (Some (mimeType m)) (base64Data m) ∧
       String.prefix "image/" (mimeType f) = true ∧
       String.prefix "image/" (mimeType m) = true ∧
       base64Data f = splitOn "," (preview f) !! 1%nat ∧
       base64Data m = splitOn "," (preview m) !! 1%nat ∧
       (∀ d, base64Data f = Some d → contains "," d = false) ∧
       (∀ d, base64Data m = Some d → contains "," d = false)).
Proof.
  intros [Hf Hm Hw Hr]%browser_reachable_inv. split.
  - intros img H.
    assert (Hst : storedPhoto img) by (destruct H; [by apply Hf | by apply Hm]).
    destruct Hst as (H1 & H2 & H3). split_and!; [done | done | | done].
    rewrite H2. apply splitOn_second.
  - intros c Hc.
    destruct (Hr c Hc)
      as (f & m & w & (Hf1 & Hf2 & Hf3) & (Hm1 & Hm2 & Hm3) & _ & ->).
    exists f, m. by split_and!.
Qed.

(** A photo whose reader result holds no comma. *)
Lemma page_holds_only_image_files_witness :
  fatherImg (handleFileUpload (Some (mkFile "image/png" (Some "data:")))
               father (initialState None))
  = Some (mkUpload "data:" None "image/png") ∧
  String.prefix "image/" (mimeType (mkUpload "data:" None "image/png")) = true ∧
  (base64Data (mkUpload "data:" None "image/png") = None ↔
   contains "," (preview (mkUpload "data:" None "image/png")) = false).
Proof.
  assert (Hb : browser_reachable
                 (handleFileUpload (Some (mkFile "image/png" (Some "data:")))
                    father (initialState None)))
    by (apply browser_upload; constructor).
  assert (Hi : fatherImg (handleFileUpload
                 (Some (mkFile "image/png" (Some "data:")))
                 father (initialState None))
               = Some (mkUpload "data:" None "image/png")) by reflexivity.
  split; [exact Hi |].
  destruct (proj1 (page_holds_only_image_files _ Hb) _ (or_introl Hi))
    as (H1 & _ & H3 & _).
  exact (conj H1 H3).
Defined.

(** X10: the weight held by the page is always between 0 and 100, and every
    request in flight was written for its own record with a weight in that
    range, so both shares it names lie between 0 and 100 and add up to
    100. *)
Theorem page_weight_stays_in_range s :
  browser_reachable s →
  0 ≤ fatherDominance s ≤ 100 ∧
  ∀ c, c ∈ pending s →
    ∃ w, req_text (call_request c) = prompt (call_item c) w ∧
         0 ≤ fatherPct w ≤ 100 ∧ 0 ≤ motherPct w ≤ 100 ∧
         fatherPct w + motherPct w = 100.
Proof.
  intros [Hf Hm Hw Hr]%browser_reachable_inv. split; [done |].
  intros c Hc. destruct (Hr c Hc) as (f & m & w & _ & _ & Hw' & ->).
  exists w. unfold fatherPct, motherPct. simpl. split_and!; [done | lia ..].
Qed.

Lemma page_weight_stays_in_range_witness :
  0 ≤ fatherDominance sonRunning ≤ 100.
Proof.
  exact (proj1 (page_weight_stays_in_range sonRunning sonRunning_browser_reachable)).
Defined.

(** ** What the cards show *)

(** X11: for a record of a reachable state the card shows the spinner
    exactly while the record is loading, the only error text it can show is
    Failed to generate, a picture always has a PNG data URL as source and a
    light badge, and the spinner and the placeholder always have the grey
    badge. *)
Theorem card_of_a_reachable_record s r :
  reachable s → r ∈ results s →
  match cardBody r with
  | Spinner _ =>
      status r = isLoading ∧ badgeHighlighted r = false
  | ErrorText message =>
      status r = failed ∧ message = "Failed to generate"
  | Picture src _ =>
      status r = ready ∧ (∃ d, src = "data:image/png;base64," +:+ d) ∧
      badgeHighlighted r = true ∧ error r = None
  | Placeholder =>
      status r = idle ∧ imageUrl r = None ∧ error r = None ∧
      badgeHighlighted r = false
  end.
Proof.
  intros Hs Hr. apply reachable_shape in Hs.
  pose proof (proj1 (Forall_forall _ _) (shape_items s Hs) r Hr) as [H1 H2 H3].
  unfold cardBody, status, badgeHighlighted.
  destruct (loading r).
  - destruct (H1 eq_refl) as [-> _]. done.
  - destruct H2 as [He | He]; rewrite He; simpl; [| done].
    destruct (imageUrl r) as [u |]; [| done].
    destruct (H3 u eq_refl) as [d ->]. simpl. split_and!; eauto.
Qed.

Lemma card_of_a_reachable_record_witness :
  cardBody (mkResult boy 15 None false (Some "Failed to generate"))
  = ErrorText "Failed to generate" ∧
  status (mkResult boy 15 None false (Some "Failed to generate")) = failed.
Proof.
  assert (Hs : reachable afterFirstRun)
    by (apply reachable_run_events, withPhotos_reachable).
  assert (Hr : mkResult boy 15 None false (Some "Failed to generate")
               ∈ results afterFirstRun)
    by (vm_compute; right; left).
  pose proof (card_of_a_reachable_record afterFirstRun _ Hs Hr) as H.
  split; [reflexivity | exact (proj1 H)].
Defined.

(** X12: each section always shows its three cards in the order of the
    ages 5, 15, 25, under three different keys, whatever has been
    generated. *)
Theorem sections_always_show_three_cards s :
  reachable s →
  cardKey <$> sectionCards boy s = ["boy-5"; "boy-15"; "boy-25"] ∧
  cardKey <$> sectionCards girl s = ["girl-5"; "girl-15"; "girl-25"] ∧
  age <$> sectionCards boy s = [5; 15; 25] ∧
  age <$> sectionCards girl s = [5; 15; 25] ∧
  sectionCards boy s ++ sectionCards girl s = results s.
Proof.
  intros Hs. apply reachable_shape in Hs.
  pose proof (shape_ident s Hs) as Hid. unfold sectionCards.
  destruct (results s) as [| r0 [| r1 [| r2 [| r3 [| r4 [| r5 [| r6 rs]]]]]]];
    try discriminate Hid.
  injection Hid as H0 H0' H1 H1' H2 H2' H3 H3' H4 H4' H5 H5'.
  rewrite !filter_cons, !filter_nil.
  rewrite H0, H1, H2, H3, H4, H5. simpl.
  unfold cardKey. rewrite H0, H1, H2, H3, H4, H5, H0', H1', H2', H3', H4', H5'.
  done.
Qed.

Lemma sections_always_show_three_cards_witness :
  cardKey <$> sectionCards boy afterSecondRun = ["boy-5"; "boy-15"; "boy-25"].
Proof.
  refine (proj1 (sections_always_show_three_cards afterSecondRun _)).
  do 2 apply reachable_run_events. apply withPhotos_reachable.
Defined.

(** ** The order of completions *)

Lemma insert_commute {A} (l : list A) i j x y :
  i ≠ j → <[i:=x]> (<[j:=y]> l) = <[j:=y]> (<[i:=x]> l).
Proof.
  revert i j. induction l as [| a l IH]; intros [| i] [| j] H; simpl;
    try done.
  f_equal. apply IH. congruence.
Qed.

Lemma delete_commute {A} (l : list A) k1 k :
  (k1 ≤ k)%nat → delete k (delete k1 l) = delete k1 (delete (S k) l).
Proof.
  revert k1 k. induction l as [| a l IH]; intros [| k1] [| k] H; simpl;
    try done; try lia.
  f_equal. apply IH. lia.
Qed.

(** In reachable states the pending calls determine the flag. *)
Lemma pending_determine_flag s s' :
  reachable s → reachable s' → pending s = pending s' →
  generatingTarget s = generatingTarget s'.
Proof.
  intros Hb%reachable_barrier Hb'%reachable_barrier Hp.
  unfold barrier in Hb, Hb'. rewrite <- Hp in Hb'.
  destruct (generatingTarget s) as [g |], (generatingTarget s') as [g' |];
    try done.
  - destruct Hb as (Hne & Hgen & _), Hb' as (_ & Hgen' & _).
    destruct (pending s) as [| c cs]; [done |].
    f_equal. rewrite <- (Hgen c), <- (Hgen' c); [done | left | left].
  - destruct Hb as (Hne & _), Hb' as (Hnil & _). done.
  - destruct Hb as (Hnil & _), Hb' as (Hne & _). done.
Qed.

(** X13: two calls of the run in flight may complete in either order: the
    records, the calls still pending and the busy flag come out the same. *)
Theorem completion_order_is_irrelevant s k1 k o1 o2 c1 c2 :
  reachable s → (k1 ≤ k)%nat →
  pending s !! k1 = Some c1 → pending s !! S k = Some c2 →
  results (settle k o2 (settle k1 o1 s))
  = results (settle k1 o1 (settle (S k) o2 s)) ∧
  pending (settle k o2 (settle k1 o1 s))
  = pending (settle k1 o1 (settle (S k) o2 s)) ∧
  generatingTarget (settle k o2 (settle k1 o1 s))
  = generatingTarget (settle k1 o1 (settle (S k) o2 s)).
Proof.
  intros Hs Hle H1 H2.
  assert (Ha : pending (settle k1 o1 s) !! k = Some c2).
  { rewrite (pending_settle k1 o1 s c1 H1).
    by rewrite list_lookup_delete_ge. }
  assert (Hb : pending (settle (S k) o2 s) !! k1 = Some c1).
  { rewrite (pending_settle (S k) o2 s c2 H2).
    rewrite list_lookup_delete_lt by lia. done. }
  assert (Hp : pending (settle k o2 (settle k1 o1 s))
               = pending (settle k1 o1 (settle (S k) o2 s))).
  { rewrite (pending_settle _ _ _ _ Ha), (pending_settle _ _ _ _ Hb).
    rewrite (pending_settle _ _ _ _ H1), (pending_settle _ _ _ _ H2).
    by apply delete_commute. }
  assert (Hne : call_index c1 ≠ call_index c2).
  { intros Heq. pose proof (reachable_barrier s Hs) as Hbar.
    unfold barrier in Hbar. destruct (generatingTarget s).
    - destruct Hbar as (_ & _ & _ & Hnd & _).
      assert (k1 = S k); [| lia].
      apply (NoDup_lookup _ _ _ (call_index c1) Hnd).
      + by rewrite list_lookup_fmap, H1.
      + by rewrite list_lookup_fmap, H2, Heq.
    - destruct Hbar as [Hnil _]. by rewrite Hnil in H1. }
  split_and!.
  - rewrite (results_settle _ _ _ _ Ha), (results_settle _ _ _ _ Hb).
    rewrite (results_settle _ _ _ _ H1), (results_settle _ _ _ _ H2).
    by apply insert_commute.
  - done.
  - apply pending_determine_flag; [| | done].
    + apply (reachable_step (Settle k o2)).
      by apply (reachable_step (Settle k1 o1)).
    + apply (reachable_step (Settle k1 o1)).
      by apply (reachable_step (Settle (S k) o2)).
Qed.

Lemma completion_order_is_irrelevant_witness :
  results (settle 0 unavailable
             (settle 0 (imageResponse "image/png" "AAAA") sonRunning))
  = results (settle 0 (imageResponse "image/png" "AAAA")
               (settle 1 unavailable sonRunning)).
Proof.
  refine (proj1 (completion_order_is_irrelevant sonRunning 0 0
                   (imageResponse "image/png" "AAAA") unavailable _ _
                   sonRunning_reachable (le_n 0) eq_refl eq_refl)).
Defined.

(** ** What a run asks for *)

(** The prompt depends on the record only through its gender and age. *)
Lemma prompt_of_identity r g a w :
  gender r = g → age r = a → prompt r w = prompt (mkResult g a None false None) w.
Proof. intros <- <-. reflexivity. Qed.

(** X14: a click on the enabled son button, with the key present, leaves
    exactly three calls pending, for the slots 0, 1, 2, whose request texts
    are the template asking for a 5-year-old boy, a 15-year-old boy and a
    25-year-old man, with the weight of the state; the daughter button gives
    the slots 3, 4, 5 and texts asking for a 5-year-old girl, a 15-year-old
    girl and a 25-year-old woman. *)
Theorem run_asks_for_three_portraits s g :
  reachable s → buttonDisabled g s = false → truthy (apiKey s) = true →
  let text (a noun : string) : string :=
    nl +:+ "          Generate a photorealistic portrait of a " +:+ a
      +:+ "-year-old " +:+ noun +:+ "."
      +:+ nl +:+ "          This person is the hypothetical child of the two people in the provided images."
      +:+ nl +:+ "          "
      +:+ nl +:+ "          Blend the physical facial features of the first image (father) and the second image (mother)."
      +:+ nl +:+ "          The facial structure and features should resemble the father by approximately "
      +:+ pretty (fatherDominance s) +:+ "% and the mother by approximately "
      +:+ pretty (100 - fatherDominance s) +:+ "%."
      +:+ nl +:+ "          "
      +:+ nl +:+ "          Ensure the image is high quality, clear, and has a neutral background. "
      +:+ nl +:+ "          Focus on facial accuracy and genetic blending."
      +:+ nl +:+ "        " in
  (λ c, (call_index c, req_text (call_request c))) <$> pending (click g s)
  = match g with
    | boy => [(0%nat, text "5" "boy"); (1%nat, text "15" "boy");
              (2%nat, text "25" "man")]
    | girl => [(3%nat, text "5" "girl"); (4%nat, text "15" "girl");
               (5%nat, text "25" "woman")]
    end ∧
  (λ c, (call_index c, age (call_item c), genderTerm (call_item c)))
    <$> pending (click g s)
  = match g with
    | boy => [(0%nat, 5, "boy"); (1%nat, 15, "boy"); (2%nat, 25, "man")]
    | girl => [(3%nat, 5, "girl"); (4%nat, 15, "girl"); (5%nat, 25, "woman")]
    end.
Proof.
  intros Hs Hd Hk text.
  pose proof (reachable_shape s Hs) as Hsh.
  pose proof (reachable_barrier s Hs) as Hb.
  unfold click. rewrite Hd.
  apply buttonDisabled_false in Hd as (Hgt & Hf & Hm).
  unfold barrier in Hb. rewrite Hgt in Hb. destruct Hb as [Hp _].
  unfold generatePrediction.
  destruct (fatherImg s) as [f |]; [| done].
  destruct (motherImg s) as [m |]; [| done].
  rewrite Hk, pending_joinRun. simpl. rewrite Hp. simpl.
  rewrite <- !list_fmap_compose.
  pose proof (shape_ident s Hsh) as Hid.
  destruct (results s) as [| r0 [| r1 [| r2 [| r3 [| r4 [| r5 [| r6 rs]]]]]]];
    try discriminate Hid.
  injection Hid as H0 H0' H1 H1' H2 H2' H3 H3' H4 H4' H5 H5'.
  unfold tasksFor. simpl. rewrite !filter_cons, filter_nil. simpl.
  rewrite H0, H1, H2, H3, H4, H5.
  split.
  - destruct g; simpl;
      [ rewrite (prompt_of_identity r0 boy 5 _ H0 H0'),
                (prompt_of_identity r1 boy 15 _ H1 H1'),
                (prompt_of_identity r2 boy 25 _ H2 H2')
      | rewrite (prompt_of_identity r3 girl 5 _ H3 H3'),
                (prompt_of_identity r4 girl 15 _ H4 H4'),
                (prompt_of_identity r5 girl 25 _ H5 H5') ];
      reflexivity.
  - destruct g; simpl; unfold genderTerm;
      rewrite ?H0, ?H1, ?H2, ?H3, ?H4, ?H5, ?H0', ?H1', ?H2', ?H3', ?H4', ?H5';
      done.
Qed.

Lemma run_asks_for_three_portraits_witness :
  (λ c, (call_index c, req_text (call_request c)))
    <$> pending (click girl withPhotos)
  = [(3%nat, prompt (mkResult girl 5 None false None) 50);
     (4%nat, prompt (mkResult girl 15 None false None) 50);
     (5%nat, prompt (mkResult girl 25 None false None) 50)] ∧
  (λ c, (call_index c, age (call_item c), genderTerm (call_item c)))
    <$> pending (click girl withPhotos)
  = [(3%nat, 5, "girl"); (4%nat, 15, "girl"); (5%nat, 25, "woman")].
Proof.
  pose proof (run_asks_for_three_portraits withPhotos girl withPhotos_reachable
                eq_refl eq_refl) as [H1 H2].
  split; [| exact H2].
  rewrite H1. vm_compute. reflexivity.
Defined.
